(** * Spotify listening-history database: consolidation queries, artist
      disambiguation, transactions and the API retry wrapper

    A shallow embedding of
    - [utils/db_utils.py] (checkpoint copy): [TRACK_MAPPING_QUERY],
      [TRACKS_CONSOLIDATED_QUERY], [update_music_listening_history],
      [process_duplicate_artists], [check_new_tracks_and_artists];
    - [db_updates.py]: [main];
    - [utils/spotify_utils.py]: [retry_operation] and the four wrapped calls;
    - [spotify_api_batch_processing.py]: [process_batch], the handler of
      [handle_new_tracks] and the batch loop of [main];
    - [utils/file_utils.py]: [read_and_process_track_csv] and
      [get_batch_track_uris].

    SQL tables are lists of rows (records named after the columns), SQL
    statements are functions on the database, and Python code that talks to
    the connection runs in a small state-and-exception monad. *)

From stdpp Require Import gmap strings.
From Stdlib Require Import ZArith List Bool Lia Permutation Sorted OrderedTypeEx DecimalString.
Import ListNotations.

Open Scope string_scope.
Open Scope Z_scope.
Open Scope list_scope.

(* ===================================================================== *)
(** * Rows of the tables *)
(* ===================================================================== *)

(** The eleven audio-feature columns ([acousticness] ... [time_signature])
    are only ever copied and compared for equality by the queries below
    ([GROUP BY], [SELECT DISTINCT]); they are kept as one list of nullable
    cells in their textual form. *)
Definition audio_features := list (option string).

Module Track.
Record t := mk {
  spotify_track_uri : string;
  spotify_track_id : string;
  spotify_artist_id : string;
  spotify_album_id : string;
  track_name : string;
  duration_ms : Z;
  track_popularity : Z;
  audio : audio_features
}.
End Track.

Module Album.
(** [release_date] is a [Date]; it is kept as a day number, so that the
    chronological order is the order of [Z]. *)
Record t := mk {
  spotify_album_id : string;
  album_type : string;
  release_date : Z
}.
End Album.

Module Artist.
Record t := mk {
  spotify_artist_id : string;
  artist_name : string;
  followers : Z
}.
End Artist.

Module TrackArtist.
Record t := mk {
  spotify_track_id : string;
  spotify_artist_id : string
}.
End TrackArtist.

Module Mapping.
Record t := mk {
  old_track_uri : string;
  new_track_uri : string
}.
End Mapping.

Module Consolidated.
(** A row of [tracks_consolidated_test]: the columns of the track and the
    aggregated [artist_names]. *)
Record t := mk {
  track : Track.t;
  artist_names : string
}.
End Consolidated.

Module Listening.
(** A row of the listening history; the two catalog ids are NULL until
    they are back-filled. *)
Record t := mk {
  music_stream_id : Z;
  spotify_track_uri : string;
  spotify_artist_id : option string;
  spotify_album_id : option string;
  artist_name : string
}.
End Listening.

#[global] Instance track_eq_dec : EqDecision Track.t.
Proof. solve_decision. Defined.
#[global] Instance album_eq_dec : EqDecision Album.t.
Proof. solve_decision. Defined.
#[global] Instance artist_eq_dec : EqDecision Artist.t.
Proof. solve_decision. Defined.
#[global] Instance track_artist_eq_dec : EqDecision TrackArtist.t.
Proof. solve_decision. Defined.
#[global] Instance mapping_eq_dec : EqDecision Mapping.t.
Proof. solve_decision. Defined.
#[global] Instance consolidated_eq_dec : EqDecision Consolidated.t.
Proof. solve_decision. Defined.
#[global] Instance listening_eq_dec : EqDecision Listening.t.
Proof. solve_decision. Defined.

(** The tables, under the names the SQL text and the table objects use.
    The raw queries read [tracks], [albums], [artists], [track_artists] and
    [track_mapping] and write [track_mapping_test] and
    [tracks_consolidated_test]; the table objects handed to the Python
    functions are bound to the [_test] tables. *)
Record database := mkdb {
  tracks : list Track.t;
  albums : list Album.t;
  artists : list Artist.t;
  track_artists : list TrackArtist.t;
  track_mapping : list Mapping.t;
  track_mapping_test : list Mapping.t;
  tracks_consolidated_test : list Consolidated.t;
  tracks_test : list Track.t;
  artists_test : list Artist.t;
  music_listening_history_test : list Listening.t
}.

(* ===================================================================== *)
(** * ORDER BY and ROW_NUMBER *)
(* ===================================================================== *)

Section OrderBy.
Context {A : Type} (leb : A -> A -> bool).

(** Stable insertion: [x] goes before the first element it is not
    greater than. *)
Fixpoint insert_by (x : A) (l : list A) : list A :=
  match l with
  | [] => [x]
  | y :: l' => if leb x y then x :: y :: l' else y :: insert_by x l'
  end.

(** [ORDER BY]: rows that tie keep the order they arrive in (SQL leaves
    the order of ties open). *)
Fixpoint order_by (l : list A) : list A :=
  match l with
  | [] => []
  | x :: l' => insert_by x (order_by l')
  end.
End OrderBy.

Section RowNumber.
Context {A K : Type} (key : A -> K) (keqb : K -> K -> bool).

(** [ROW_NUMBER() OVER (PARTITION BY key ...)] along an ordered list: a
    row's number is one more than the number of rows of its partition
    that come before it. *)
Fixpoint number_rows (seen l : list A) : list (A * nat) :=
  match l with
  | [] => []
  | r :: l' =>
      (r, S (length (filter (fun s => keqb (key s) (key r)) seen)))
        :: number_rows (seen ++ [r]) l'
  end.

Definition rank_is (n : nat) (p : A * nat) : bool := Nat.eqb (snd p) n.
End RowNumber.

(* ===================================================================== *)
(** * TRACK_MAPPING_QUERY *)
(* ===================================================================== *)

(** [duration_ms - duration_ms % 3000]; the integer [%] of PostgreSQL
    truncates towards zero, which is [Z.rem]. *)
Definition duration_ms_group (duration_ms : Z) : Z :=
  duration_ms - Z.rem duration_ms 3000.

(** [ON] clause of [tracks t1 JOIN tracks t2]. *)
Definition self_join_on (t1 t2 : Track.t) : bool :=
  String.eqb (Track.track_name t1) (Track.track_name t2)
  && String.eqb (Track.spotify_artist_id t1) (Track.spotify_artist_id t2)
  && (Z.abs (Track.duration_ms t1 - Track.duration_ms t2) <=? 3000).

Definition self_join (ts : list Track.t) : list (Track.t * Track.t) :=
  flat_map (fun t1 => map (pair t1) (filter (self_join_on t1) ts)) ts.

(** Subquery [t]: the self join grouped by the columns of [t1], one row per
    group.  [duration_ms_group] is a function of the row and is computed
    where it is read; [min_duration_ms] is read nowhere. *)
Definition subquery_t (ts : list Track.t) : list Track.t :=
  nodup track_eq_dec (map fst (self_join ts)).

(** [t JOIN albums a ON t.spotify_album_id = a.spotify_album_id]. *)
Definition album_join_on (t : Track.t) (a : Album.t) : bool :=
  String.eqb (Track.spotify_album_id t) (Album.spotify_album_id a).

Definition album_join (ts : list Track.t) (als : list Album.t) : list (Track.t * Album.t) :=
  flat_map (fun t => map (pair t) (filter (album_join_on t) als)) ts.

(** The [CASE] of the window's [ORDER BY]. *)
Definition album_type_rank (a : Album.t) : Z :=
  if String.eqb (Album.album_type a) "album" then 1
  else if String.eqb (Album.album_type a) "single" then 2
  else if String.eqb (Album.album_type a) "compilation" then 3
  else 4.

(** Lexicographic chaining of the [ORDER BY] items. *)
Definition then_by (c1 c2 : comparison) : comparison :=
  match c1 with Eq => c2 | _ => c1 end.

(** [ORDER BY CASE ..., t.track_popularity DESC, a.release_date,
    t.spotify_track_id]; ids are compared character by character. *)
Definition window_cmp (r1 r2 : Track.t * Album.t) : comparison :=
  then_by (album_type_rank (snd r1) ?= album_type_rank (snd r2))
  (then_by (Track.track_popularity (fst r2) ?= Track.track_popularity (fst r1))
  (then_by (Album.release_date (snd r1) ?= Album.release_date (snd r2))
           (String.compare (Track.spotify_track_id (fst r1))
                           (Track.spotify_track_id (fst r2))))).

Definition window_leb (r1 r2 : Track.t * Album.t) : bool :=
  match window_cmp r1 r2 with Gt => false | _ => true end.

(** [PARTITION BY t.spotify_artist_id, t.track_name, t.duration_ms_group]. *)
Definition partition_key (t : Track.t) : string * string * Z :=
  (Track.spotify_artist_id t, Track.track_name t,
   duration_ms_group (Track.duration_ms t)).

Definition key_eqb (k1 k2 : string * string * Z) : bool :=
  let '(a1, n1, g1) := k1 in
  let '(a2, n2, g2) := k2 in
  String.eqb a1 a2 && String.eqb n1 n2 && (g1 =? g2).

(** Subquery [x]: the joined rows with their [rnk]. *)
Definition subquery_x (db : database) : list (Track.t * Album.t * nat) :=
  number_rows (fun r => partition_key (fst r)) key_eqb []
    (order_by window_leb (album_join (subquery_t (tracks db)) (albums db))).

(** [ON] clause of [x LEFT OUTER JOIN tracks y]. *)
Definition left_join_on (x : Track.t * Album.t * nat) (y : Track.t) : bool :=
  String.eqb (Track.spotify_artist_id (fst (fst x))) (Track.spotify_artist_id y)
  && String.eqb (Track.track_name (fst (fst x))) (Track.track_name y)
  && (duration_ms_group (Track.duration_ms (fst (fst x)))
      =? Track.duration_ms y - Z.rem (Track.duration_ms y) 3000).

(** A left row without a partner is kept once, with NULL on the right. *)
Definition left_outer_join {X Y : Type} (on : X -> Y -> bool)
    (xs : list X) (ys : list Y) : list (X * option Y) :=
  flat_map (fun x =>
              match filter (on x) ys with
              | [] => [(x, None)]
              | m => map (fun y => (x, Some y)) m
              end) xs.

Definition COALESCE (a : option string) (b : string) : string :=
  match a with Some v => v | None => b end.

(** The [SELECT] that feeds the [INSERT]. *)
Definition track_mapping_select (db : database) : list Mapping.t :=
  map (fun j : Track.t * Album.t * nat * option Track.t =>
         let x := fst (fst (fst j)) in
         Mapping.mk (COALESCE (option_map Track.spotify_track_uri (snd j))
                              (Track.spotify_track_uri x))
                    (Track.spotify_track_uri x))
      (filter (fun j => Nat.eqb (snd (fst j)) 1)
              (left_outer_join left_join_on (subquery_x db) (tracks db))).

(** Primary-key check of an [INSERT] into an emptied table. *)
Fixpoint unique_keys (l : list string) : bool :=
  match l with
  | [] => true
  | k :: l' => negb (existsb (String.eqb k) l') && unique_keys l'
  end.

Definition set_track_mapping_test (rows : list Mapping.t) (db : database) : database :=
  {| tracks := tracks db; albums := albums db; artists := artists db;
     track_artists := track_artists db; track_mapping := track_mapping db;
     track_mapping_test := rows;
     tracks_consolidated_test := tracks_consolidated_test db;
     tracks_test := tracks_test db; artists_test := artists_test db;
     music_listening_history_test := music_listening_history_test db |}.

(** [TRUNCATE TABLE track_mapping_test; INSERT INTO track_mapping_test
    SELECT ...]: [None] when the insert violates the primary key
    [old_track_uri] of the target. *)
Definition TRACK_MAPPING_QUERY (db : database) : option database :=
  let rows := track_mapping_select db in
  if unique_keys (map Mapping.old_track_uri rows)
  then Some (set_track_mapping_test rows db)
  else None.

(** The rows of [x] with [rnk = 1]. *)
Definition canonical_rows (db : database) : list (Track.t * Album.t) :=
  map fst (filter (rank_is 1) (subquery_x db)).

(** The rows that enter the window: tracks with a matching album row. *)
Definition joined_rows (db : database) : list (Track.t * Album.t) :=
  album_join (subquery_t (tracks db)) (albums db).


(** The sort key of a row of the window. *)
Definition window_key (r : Track.t * Album.t) : Z * Z * Z * string :=
  (album_type_rank (snd r), - Track.track_popularity (fst r),
   Album.release_date (snd r), Track.spotify_track_id (fst r)).

Definition key_le (k1 k2 : Z * Z * Z * string) : Prop :=
  let '(a1, b1, c1, s1) := k1 in
  let '(a2, b2, c2, s2) := k2 in
  a1 < a2 \/ (a1 = a2 /\ (b1 < b2 \/ (b1 = b2 /\ (c1 < c2 \/
    (c1 = c2 /\ String.compare s1 s2 <> Gt))))).

Definition row_key (r : Track.t * Album.t) : string * string * Z :=
  partition_key (fst r).

Definition mapping_rows_of (ts : list Track.t) (x : Track.t * Album.t * nat) : list Mapping.t :=
  map (fun y => Mapping.mk (Track.spotify_track_uri y)
                           (Track.spotify_track_uri (fst (fst x))))
      (filter (left_join_on x) ts).

Definition tracks_keyed (db : database) : Prop :=
  NoDup (map Track.spotify_track_id (tracks db)).

Definition track_uris_distinct (db : database) : Prop :=
  NoDup (map Track.spotify_track_uri (tracks db)).

Definition albums_keyed (db : database) : Prop :=
  NoDup (map Album.spotify_album_id (albums db)).

(** The track joins to a row of [albums]. *)
Definition has_album (db : database) (t : Track.t) : Prop :=
  exists a, In a (albums db) /\ Track.spotify_album_id t = Album.spotify_album_id a.


(** ** Tables of the scenarios *)

Definition no_audio : audio_features := [].

(** Two releases of one recording, on an album and as a single. *)
Definition track_A : Track.t :=
  Track.mk "spotify:track:A" "A" "1" "album_A" "X" 180000 40 no_audio.
Definition track_B : Track.t :=
  Track.mk "spotify:track:B" "B" "1" "album_B" "X" 181500 90 no_audio.
(** A third release whose album was never loaded. *)
Definition track_C : Track.t :=
  Track.mk "spotify:track:C" "C" "1" "album_C" "X" 180100 70 no_audio.
(** A release 1 ms shorter than 180000 ms: the bucket below. *)
Definition track_D : Track.t :=
  Track.mk "spotify:track:D" "D" "1" "album_B" "X" 179999 10 no_audio.

Definition album_A : Album.t := Album.mk "album_A" "album" 17000.
Definition album_B : Album.t := Album.mk "album_B" "single" 16000.

Definition tables (ts : list Track.t) (als : list Album.t) : database :=
  mkdb ts als [] [] [] [] [] [] [] [].

Definition two_release_db : database := tables [track_B; track_A] [album_B; album_A].
Definition missing_album_db : database := tables [track_C; track_A] [album_A].
Definition boundary_db : database := tables [track_D; track_A] [album_B; album_A].

(* ===================================================================== *)
(** * TRACKS_CONSOLIDATED_QUERY *)
(* ===================================================================== *)

(** [track_artists ta JOIN artists a ON ta.spotify_artist_id =
    a.spotify_artist_id JOIN tracks t ON ta.spotify_track_id =
    t.spotify_track_id]. *)
Definition artist_join (db : database) : list (TrackArtist.t * Artist.t * Track.t) :=
  flat_map (fun ta =>
    flat_map (fun a =>
      map (fun t => (ta, a, t))
          (filter (fun t => String.eqb (TrackArtist.spotify_track_id ta)
                                       (Track.spotify_track_id t))
                  (tracks db)))
      (filter (fun a => String.eqb (TrackArtist.spotify_artist_id ta)
                                   (Artist.spotify_artist_id a))
              (artists db)))
    (track_artists db).

(** [CASE WHEN ta.spotify_artist_id = t.spotify_artist_id THEN 1 ELSE 2 END]. *)
Definition primary_first (r : TrackArtist.t * Artist.t * Track.t) : Z :=
  if String.eqb (TrackArtist.spotify_artist_id (fst (fst r)))
                (Track.spotify_artist_id (snd r))
  then 1 else 2.

Definition primary_first_leb (r1 r2 : TrackArtist.t * Artist.t * Track.t) : bool :=
  primary_first r1 <=? primary_first r2.

(** The rows of one group of [GROUP BY ta.spotify_track_id], in the order
    in which [STRING_AGG] reads them. *)
Definition aggregated_rows (db : database) (track_id : string)
    : list (TrackArtist.t * Artist.t * Track.t) :=
  order_by primary_first_leb
    (filter (fun r => String.eqb (TrackArtist.spotify_track_id (fst (fst r))) track_id)
            (artist_join db)).

Definition aggregated_names (db : database) (track_id : string) : list string :=
  map (fun r => Artist.artist_name (snd (fst r))) (aggregated_rows db track_id).

Definition STRING_AGG (delimiter : string) (values : list string) : string :=
  String.concat delimiter values.

(** Subquery [an]: one row per track id that occurs in the join. *)
Definition subquery_an (db : database) : list (string * string) :=
  map (fun track_id => (track_id, STRING_AGG ", " (aggregated_names db track_id)))
      (nodup String.string_dec
             (map (fun r => TrackArtist.spotify_track_id (fst (fst r))) (artist_join db))).

(** [SELECT DISTINCT ... FROM tracks t JOIN track_mapping tm ON
    t.spotify_track_uri = tm.new_track_uri JOIN (...) an ON
    t.spotify_track_id = an.spotify_track_id]. *)
Definition tracks_consolidated_select (db : database) : list Consolidated.t :=
  nodup consolidated_eq_dec
    (flat_map (fun t =>
       flat_map (fun tm =>
         map (fun an => Consolidated.mk t (snd an))
             (filter (fun an => String.eqb (Track.spotify_track_id t) (fst an))
                     (subquery_an db)))
         (filter (fun tm => String.eqb (Track.spotify_track_uri t)
                                       (Mapping.new_track_uri tm))
                 (track_mapping db)))
       (tracks db)).

Definition set_tracks_consolidated_test (rows : list Consolidated.t) (db : database)
    : database :=
  {| tracks := tracks db; albums := albums db; artists := artists db;
     track_artists := track_artists db; track_mapping := track_mapping db;
     track_mapping_test := track_mapping_test db;
     tracks_consolidated_test := rows;
     tracks_test := tracks_test db; artists_test := artists_test db;
     music_listening_history_test := music_listening_history_test db |}.

(** [TRUNCATE TABLE tracks_consolidated_test; INSERT INTO
    tracks_consolidated_test SELECT DISTINCT ...]: [None] when the insert
    violates the primary key [spotify_track_id] of the target. *)
Definition TRACKS_CONSOLIDATED_QUERY (db : database) : option database :=
  let rows := tracks_consolidated_select db in
  if unique_keys (map (fun r => Track.spotify_track_id (Consolidated.track r)) rows)
  then Some (set_tracks_consolidated_test rows db)
  else None.

(** The two rebuilds in the order in which [db_updates.main] issues them. *)
Definition rebuild (db : database) : option database :=
  match TRACK_MAPPING_QUERY db with
  | Some db1 => TRACKS_CONSOLIDATED_QUERY db1
  | None => None
  end.

Definition artists_keyed (db : database) : Prop :=
  NoDup (map Artist.spotify_artist_id (artists db)).

(** The track is the target of a row of [track_mapping]. *)
Definition is_mapping_target (db : database) (t : Track.t) : Prop :=
  exists tm, In tm (track_mapping db) /\
             Mapping.new_track_uri tm = Track.spotify_track_uri t.

(** A canonical track with its two artists, and one with no association. *)
Definition band : Artist.t := Artist.mk "1" "Band" 1000.
Definition guest : Artist.t := Artist.mk "2" "Guest" 50.

Definition consolidation_db : database :=
  mkdb [track_A] [album_A] [guest; band]
       [TrackArtist.mk "A" "2"; TrackArtist.mk "A" "1"]
       [Mapping.mk "spotify:track:A" "spotify:track:A";
        Mapping.mk "spotify:track:B" "spotify:track:A"]
       [] [] [] [] [].



(** An artist of [artists] that [track_artists] associates with the id. *)
Definition associated_artist (db : database) (track_id : string) (a : Artist.t) : Prop :=
  In a (artists db) /\
  exists ta, In ta (track_artists db) /\
    TrackArtist.spotify_track_id ta = track_id /\
    TrackArtist.spotify_artist_id ta = Artist.spotify_artist_id a.


(** Two states hold the same rows in every table that the two rebuild
    queries read. *)
Definition same_sources (db1 db2 : database) : Prop :=
  tracks db1 = tracks db2 /\ albums db1 = albums db2 /\
  track_artists db1 = track_artists db2 /\ artists db1 = artists db2 /\
  track_mapping db1 = track_mapping db2.

(* ===================================================================== *)
(** * Python exceptions, the connection and its transactions *)
(* ===================================================================== *)

Inductive exception : Type :=
| NameError (name : string)
| MaxRetriesExceededException (message : string)
| IntegrityError (statement : string)
| SpotifyException (message : string).

Inductive outcome (A : Type) : Type :=
| Returned (a : A)
| Raised (e : exception).
Arguments Returned {A} a.
Arguments Raised {A} e.

(** What a connection is asked to do. *)
Inductive event : Type :=
| Execute (statement : string)
| Commit.

(** A SQLAlchemy connection in "commit as you go" mode: statements act on
    the open transaction ([working]); [commit] makes it the durable state
    ([committed]); [journal] records the calls in order. *)
Record connection := mkconn {
  working : database;
  committed : database;
  journal : list event
}.

Definition conn_m (A : Type) : Type := connection -> outcome A * connection.

Definition ret {A : Type} (a : A) : conn_m A := fun c => (Returned a, c).

Definition bind {A B : Type} (m : conn_m A) (f : A -> conn_m B) : conn_m B :=
  fun c => match m c with
           | (Returned a, c') => f a c'
           | (Raised e, c') => (Raised e, c')
           end.

Definition raise {A : Type} (e : exception) : conn_m A := fun c => (Raised e, c).

Notation "'let*' x ':=' c1 'in' c2" := (bind c1 (fun x => c2))
  (at level 10, x name, c1 at level 100, c2 at level 200).
Notation "c1 ';;' c2" := (bind c1 (fun _ => c2))
  (at level 100, c2 at level 200, right associativity).

(** [conn.execute] of a statement that reads. *)
Definition execute_select {A : Type} (statement : string) (q : database -> A)
    : conn_m A :=
  fun c => (Returned (q (working c)),
            mkconn (working c) (committed c) (journal c ++ [Execute statement])).

(** [conn.execute] of a statement that writes; a statement that fails on a
    key leaves the open transaction as it was and raises. *)
Definition execute (statement : string) (f : database -> option database)
    : conn_m unit :=
  fun c => match f (working c) with
           | Some db' =>
               (Returned tt,
                mkconn db' (committed c) (journal c ++ [Execute statement]))
           | None =>
               (Raised (IntegrityError statement),
                mkconn (working c) (committed c) (journal c ++ [Execute statement]))
           end.

(** [conn.commit()]. *)
Definition commit : conn_m unit :=
  fun c => (Returned tt, mkconn (working c) (working c) (journal c ++ [Commit])).

(** [with db.connect() as conn: body]: the connection opens on the durable
    state and closing it drops what was not committed. *)
Definition with_connection {A : Type} (body : conn_m A) (db : database)
    : outcome A * database * list event :=
  let '(r, c) := body (mkconn db db []) in (r, committed c, journal c).

(** [logger.info], [logger.warning], [logger.error] of a ready message. *)
Definition logger_call (message : string) : conn_m unit := ret tt.

(** ** Names in scope *)

(** Names bound at module level in [db_utils]. *)
Definition db_utils_globals : list string :=
  ["logging"; "os"; "load_dotenv"; "create_engine"; "MetaData"; "Table";
   "Column"; "Integer"; "BigInteger"; "String"; "Text"; "DateTime"; "Boolean";
   "Date"; "Float"; "PrimaryKeyConstraint"; "select"; "insert"; "update";
   "and_"; "or_"; "inspect"; "func"; "Inspector"; "psycopg"; "configparser";
   "time"; "datetime"; "pd"; "get_db_connection"; "initialize_db";
   "create_tables"; "table_db"; "table_metadata"; "table_names"; "tables";
   "music_listening_history_table"; "tracks_table"; "track_artists_table";
   "artists_table"; "artist_genre_table"; "albums_table";
   "track_mapping_table"; "tracks_consolidated_table"; "load_data_to_db";
   "check_new_tracks_and_artists"; "insert_track_artist"; "insert_new_track";
   "insert_album"; "insert_artist"; "update_audio_features";
   "update_music_listening_history"; "process_duplicate_artists";
   "fetch_table_to_dataframe"; "get_artists_and_albums_for_img";
   "TRACK_MAPPING_QUERY"; "TRACKS_CONSOLIDATED_QUERY"].

(** Names that [process_duplicate_artists] binds (parameters and
    assignment targets); a name outside this list is looked up in the module
    (neither [album_name] nor [e] is a builtin). *)
Definition process_duplicate_artists_locals : list string :=
  ["conn"; "music_listening_history_table"; "artists_table"; "logger";
   "dupe_query"; "dupe_result"; "duplicate_artist_names"; "query"; "result";
   "dupe_artist_df"; "artist_counts"; "new_artist_names"; "index"; "row";
   "artist_name"; "new_artist_name"; "spotify_artist_id";
   "mlh_dupe_artist_stmt"; "artists_dupe_artist_stmt"].

Definition bound (scope : list string) (name : string) : bool :=
  existsb (String.eqb name) scope.

(** Evaluation of the replacement fields of an f-string, left to right: the
    first name that is bound nowhere raises [NameError]. *)
Fixpoint eval_fstring (locals globals : list string) (fields : list string)
    : outcome unit :=
  match fields with
  | [] => Returned tt
  | name :: rest =>
      if bound locals name || bound globals name
      then eval_fstring locals globals rest
      else Raised (NameError name)
  end.

Definition fstring (locals globals fields : list string) : conn_m unit :=
  fun c => (eval_fstring locals globals fields, c).

(* ===================================================================== *)
(** * update_music_listening_history and process_duplicate_artists *)
(* ===================================================================== *)

Definition set_music_listening_history_test (rows : list Listening.t) (db : database)
    : database :=
  {| tracks := tracks db; albums := albums db; artists := artists db;
     track_artists := track_artists db; track_mapping := track_mapping db;
     track_mapping_test := track_mapping_test db;
     tracks_consolidated_test := tracks_consolidated_test db;
     tracks_test := tracks_test db; artists_test := artists_test db;
     music_listening_history_test := rows |}.

Definition set_artists_test (rows : list Artist.t) (db : database) : database :=
  {| tracks := tracks db; albums := albums db; artists := artists db;
     track_artists := track_artists db; track_mapping := track_mapping db;
     track_mapping_test := track_mapping_test db;
     tracks_consolidated_test := tracks_consolidated_test db;
     tracks_test := tracks_test db; artists_test := rows;
     music_listening_history_test := music_listening_history_test db |}.

(** [UPDATE music_listening_history SET spotify_artist_id = tracks.
    spotify_artist_id, spotify_album_id = tracks.spotify_album_id FROM tracks
    WHERE music_listening_history.spotify_track_uri = tracks.
    spotify_track_uri], on the tables the caller passes. *)
Definition mlh_update_stmt (db : database) : database :=
  set_music_listening_history_test
    (map (fun h =>
            match find (fun t => String.eqb (Listening.spotify_track_uri h)
                                            (Track.spotify_track_uri t))
                       (tracks_test db) with
            | Some t =>
                Listening.mk (Listening.music_stream_id h)
                             (Listening.spotify_track_uri h)
                             (Some (Track.spotify_artist_id t))
                             (Some (Track.spotify_album_id t))
                             (Listening.artist_name h)
            | None => h
            end)
         (music_listening_history_test db))
    db.

Definition update_music_listening_history : conn_m unit :=
  execute "UPDATE music_listening_history_test" (fun db => Some (mlh_update_stmt db)) ;;
  commit ;;
  logger_call "Music listening history updated with Spotify Artist/Album IDs".

(** [SELECT artist_name FROM artists GROUP BY artist_name HAVING count > 1]:
    the names that more than one row carries. *)
Definition dupe_query (db : database) : list string :=
  filter (fun n => 1 <? Z.of_nat (count_occ String.string_dec
                                    (map Artist.artist_name (artists_test db)) n))
         (nodup String.string_dec (map Artist.artist_name (artists_test db))).

(** [SELECT artist_name, spotify_artist_id, followers FROM artists WHERE
    artist_name IN (duplicate_artist_names)]. *)
Definition followers_query (duplicate_artist_names : list string) (db : database)
    : list Artist.t :=
  filter (fun a => existsb (String.eqb (Artist.artist_name a)) duplicate_artist_names)
         (artists_test db).

(** [sort_values(by='followers', ascending=False)]. *)
Definition followers_desc (a b : Artist.t) : bool :=
  Artist.followers b <=? Artist.followers a.

(** [str] of a Python [int]. *)
Definition decimal (n : Z) : string := NilEmpty.string_of_int (Z.to_int n).

(** One turn of the first [for] loop: [artist_counts] is the dict, the new
    name is appended to [new_artist_names]. *)
Definition count_artist (st : gmap string Z * list string) (row : Artist.t)
    : gmap string Z * list string :=
  let artist_counts := fst st in
  let artist_name := Artist.artist_name row in
  match artist_counts !! artist_name with
  | Some n =>
      (<[artist_name := n + 1]> artist_counts,
       snd st ++ [String.append artist_name
                    (String.append " (" (String.append (decimal (n + 1)) ")"))])
  | None => (<[artist_name := 1]> artist_counts, snd st ++ [artist_name])
  end.

Definition new_artist_names (dupe_artist_df : list Artist.t) : list string :=
  snd (fold_left count_artist dupe_artist_df (∅, [])).

(** [dupe_artist_df['artist_name'] = new_artist_names]: by position. *)
Definition assign_artist_name (dupe_artist_df : list Artist.t) (names : list string)
    : list Artist.t :=
  map (fun p => Artist.mk (Artist.spotify_artist_id (fst p)) (snd p)
                          (Artist.followers (fst p)))
      (combine dupe_artist_df names).

(** [UPDATE music_listening_history SET artist_name = :artist_name WHERE
    spotify_artist_id = :spotify_artist_id]; a NULL id matches nothing. *)
Definition mlh_dupe_artist_stmt (artist_name spotify_artist_id : string)
    (db : database) : database :=
  set_music_listening_history_test
    (map (fun h =>
            match Listening.spotify_artist_id h with
            | Some i =>
                if String.eqb i spotify_artist_id
                then Listening.mk (Listening.music_stream_id h)
                                  (Listening.spotify_track_uri h)
                                  (Listening.spotify_artist_id h)
                                  (Listening.spotify_album_id h)
                                  artist_name
                else h
            | None => h
            end)
         (music_listening_history_test db))
    db.

(** [UPDATE artists SET artist_name = :artist_name WHERE spotify_artist_id =
    :spotify_artist_id]. *)
Definition artists_dupe_artist_stmt (artist_name spotify_artist_id : string)
    (db : database) : database :=
  set_artists_test
    (map (fun a =>
            if String.eqb (Artist.spotify_artist_id a) spotify_artist_id
            then Artist.mk (Artist.spotify_artist_id a) artist_name (Artist.followers a)
            else a)
         (artists_test db))
    db.

(** The second [for] loop: two updates, a commit and a log line per row. *)
Fixpoint apply_new_names (dupe_artist_df : list Artist.t) : conn_m unit :=
  match dupe_artist_df with
  | [] => ret tt
  | row :: rest =>
      execute "UPDATE music_listening_history_test"
        (fun db => Some (mlh_dupe_artist_stmt (Artist.artist_name row)
                                              (Artist.spotify_artist_id row) db)) ;;
      execute "UPDATE artists_test"
        (fun db => Some (artists_dupe_artist_stmt (Artist.artist_name row)
                                                  (Artist.spotify_artist_id row) db)) ;;
      commit ;;
      logger_call "Duplicate artist names handled" ;;
      apply_new_names rest
  end.

(** The data frame after the sort, the counting loop and the assignment
    of the new names. *)
Definition renaming_plan (result : list Artist.t) : list Artist.t :=
  let dupe_artist_df := order_by followers_desc result in
  assign_artist_name dupe_artist_df (new_artist_names dupe_artist_df).

(** The body of [process_duplicate_artists] from the follower query on. *)
Definition rename_duplicates (duplicate_artist_names : list string) : conn_m unit :=
  let* result := execute_select "SELECT artists_test"
                   (followers_query duplicate_artist_names) in
  apply_new_names (renaming_plan result).

Definition process_duplicate_artists : conn_m unit :=
  let* duplicate_artist_names := execute_select "SELECT artists_test" dupe_query in
  fstring process_duplicate_artists_locals db_utils_globals ["album_name"; "e"] ;;
  logger_call "Failed to process album" ;;
  rename_duplicates duplicate_artist_names.

(** ** db_updates.main *)

Section Main.
(** [GENRES_UPDATE_QUERY] is imported by [db_updates] but its text is not
    part of the sources at hand: it is a parameter. *)
Variable GENRES_UPDATE_QUERY : database -> option database.

(** The three raw statements and the one [conn.commit()] after them. *)
Definition rebuild_and_commit : conn_m unit :=
  execute "TRACK_MAPPING_QUERY" TRACK_MAPPING_QUERY ;;
  logger_call "track_mapping table updated" ;;
  execute "TRACKS_CONSOLIDATED_QUERY" TRACKS_CONSOLIDATED_QUERY ;;
  logger_call "tracks_consolidated table updated" ;;
  execute "GENRES_UPDATE_QUERY" GENRES_UPDATE_QUERY ;;
  logger_call "genres field in artists table updated" ;;
  commit.

Definition main (db : database) : outcome unit * database * list event :=
  with_connection
    (update_music_listening_history ;;
     process_duplicate_artists ;;
     rebuild_and_commit)
    db.
End Main.

Definition commits (j : list event) : nat :=
  length (filter (fun ev => match ev with Commit => true | Execute _ => false end) j).

(** ** Artists that share a name *)

Definition bob_1 : Artist.t := Artist.mk "1" "Bob" 1000.
Definition bob_2 : Artist.t := Artist.mk "2" "Bob" 50.
Definition bob_3 : Artist.t := Artist.mk "3" "Bob" 7.

Definition play (stream : Z) (artist_id : string) : Listening.t :=
  Listening.mk stream "spotify:track:A" (Some artist_id) (Some "album_A") "Bob".

Definition bobs_db : database :=
  mkdb [] [] [] [] [] [] [] [] [bob_2; bob_1] [play 1 "1"; play 2 "2"].

Definition three_bobs_db : database :=
  mkdb [] [] [] [] [] [] [] [] [bob_3; bob_1; bob_2]
       [play 1 "1"; play 2 "2"; play 3 "3"].

Definition fresh (db : database) : connection := mkconn db db [].

(** The calls of one turn of the renaming loop. *)
Definition row_events : list event :=
  [Execute "UPDATE music_listening_history_test"; Execute "UPDATE artists_test"; Commit].

(** A stand-in for the genres statement that changes nothing. *)
Definition no_genres_update (db : database) : option database := Some db.

(* ===================================================================== *)
(** * spotify_utils: the retry decorator and the wrapped calls *)
(* ===================================================================== *)

(** What the decorator and the wrapped functions do besides computing. *)
Inductive api_event : Type :=
| Call (method : string)
| Sleep (seconds : Z)
| Log (level message : string).

Definition RETRY_CONFIG : gmap string Z :=
  <["max_retries" := 3]> (<["delay" := 10]> ∅).

Definition sleep_seconds : Z := 5.

(** The [while] loop of [wrapper].  [func n] is the outcome, with its
    events, of the call made when [attempt] is [n].  The loop runs at most
    [max_retries] times; [fuel] bounds the recursion and [None] would mean
    that the bound was too small. *)
Fixpoint retry_loop {A : Type} (name : string)
    (func : nat -> outcome A * list api_event) (max_retries delay : Z)
    (fuel : nat) (attempt : Z) : option (outcome (option A) * list api_event) :=
  if attempt <? max_retries then
    match fuel with
    | O => None
    | S fuel' =>
        match func (Z.to_nat attempt) with
        | (Returned v, tr) => Some (Returned (Some v), tr)
        | (Raised _, tr) =>
            let attempt := attempt + 1 in
            if attempt >=? max_retries then
              Some (Raised (MaxRetriesExceededException
                              (String.append "Max retries reached for " name)),
                    tr ++ [Log "error" (String.append "Max retries reached for " name)])
            else
              match retry_loop name func max_retries delay fuel' attempt with
              | Some (r, tr') =>
                  Some (r, tr ++ [Log "warning" (String.append "Retrying " name);
                                  Sleep delay] ++ tr')
              | None => None
              end
        end
    end
  else Some (Returned None, []).

(** [retry_operation(func)], applied: the configuration is read from
    [RETRY_CONFIG] with the defaults of the two [get] calls. *)
Definition retry_operation {A : Type} (name : string)
    (func : nat -> outcome A * list api_event)
    : option (outcome (option A) * list api_event) :=
  let max_retries := default 3 (RETRY_CONFIG !! "max_retries") in
  let delay := default 10 (RETRY_CONFIG !! "delay") in
  retry_loop name func max_retries delay (Z.to_nat max_retries) 0.

(** The catalog client: what each method answers to a request on its
    n-th call (the answer is kept as text). *)
Record spotify := mksp {
  sp_tracks : list string -> nat -> outcome string;
  sp_audio_features : list string -> nat -> outcome string;
  sp_album : string -> nat -> outcome string;
  sp_artist : string -> nat -> outcome string
}.

(** The common shape of the four bodies: a log line, the client call, and
    the pause after an answer. *)
Definition api_body (message method : string) (call : nat -> outcome string)
    (n : nat) : outcome string * list api_event :=
  match call n with
  | Returned v => (Returned v, [Log "info" message; Call method; Sleep sleep_seconds])
  | Raised e => (Raised e, [Log "info" message; Call method])
  end.

Definition fetch_batch_tracks (sp : spotify) (batch_track_uris : list string) :=
  retry_operation "fetch_batch_tracks"
    (api_body "About to make a tracks call" "tracks" (sp_tracks sp batch_track_uris)).

Definition fetch_audio_features (sp : spotify) (batch_track_uris : list string) :=
  retry_operation "fetch_audio_features"
    (api_body "About to make an audio features call" "audio_features"
              (sp_audio_features sp batch_track_uris)).

Definition fetch_album (sp : spotify) (album_uri : string) :=
  retry_operation "fetch_album"
    (api_body "About to make an album call" "album" (sp_album sp album_uri)).

Definition fetch_artist (sp : spotify) (artist_uri : string) :=
  retry_operation "fetch_artist"
    (api_body "About to make an artist call" "artist" (sp_artist sp artist_uri)).

(** The four wrapped operations, each with its request. *)
Inductive wrapped_call : Type :=
| Fetch_batch_tracks (batch_track_uris : list string)
| Fetch_audio_features (batch_track_uris : list string)
| Fetch_album (album_uri : string)
| Fetch_artist (artist_uri : string).

Definition wrapped_name (w : wrapped_call) : string :=
  match w with
  | Fetch_batch_tracks _ => "fetch_batch_tracks"
  | Fetch_audio_features _ => "fetch_audio_features"
  | Fetch_album _ => "fetch_album"
  | Fetch_artist _ => "fetch_artist"
  end.

(** The client method behind a wrapped operation. *)
Definition client_call (sp : spotify) (w : wrapped_call) : nat -> outcome string :=
  match w with
  | Fetch_batch_tracks uris => sp_tracks sp uris
  | Fetch_audio_features uris => sp_audio_features sp uris
  | Fetch_album uri => sp_album sp uri
  | Fetch_artist uri => sp_artist sp uri
  end.

Definition run_wrapped (sp : spotify) (w : wrapped_call)
    : option (outcome (option string) * list api_event) :=
  match w with
  | Fetch_batch_tracks uris => fetch_batch_tracks sp uris
  | Fetch_audio_features uris => fetch_audio_features sp uris
  | Fetch_album uri => fetch_album sp uri
  | Fetch_artist uri => fetch_artist sp uri
  end.

Definition calls (tr : list api_event) : nat :=
  length (filter (fun ev => match ev with Call _ => true | _ => false end) tr).

Definition sleeps (tr : list api_event) : list Z :=
  flat_map (fun ev => match ev with Sleep s => [s] | _ => [] end) tr.

(** ** spotify_api_batch_processing: the batch loop of main *)

Definition batch_size : Z := 50.

Section BatchRun.
(** What processing the batch that starts at an index comes to. *)
Variable process_batch : Z -> outcome unit.

(** [while start_index < len(track_df)]: the indices of the batches
    handed to [process_batch], and how the loop ended. *)
Fixpoint batch_loop (fuel : nat) (start_index len : Z)
    : option (outcome unit * list Z) :=
  if start_index <? len then
    match fuel with
    | O => None
    | S fuel' =>
        match process_batch start_index with
        | Returned _ =>
            match batch_loop fuel' (start_index + batch_size) len with
            | Some (r, done) => Some (r, start_index :: done)
            | None => None
            end
        | Raised e => Some (Raised e, [start_index])
        end
    end
  else Some (Returned tt, []).

(** The [try] around the loop: [MaxRetriesExceededException] is logged and
    raised again, any other exception is logged only. *)
Definition batch_main (start_index len : Z) : option (outcome unit * list Z) :=
  match batch_loop (Z.to_nat (len - start_index)) start_index len with
  | Some (Raised (MaxRetriesExceededException m), done) =>
      Some (Raised (MaxRetriesExceededException m), done)
  | Some (Raised _, done) => Some (Returned tt, done)
  | Some (Returned _, done) => Some (Returned tt, done)
  | None => None
  end.
End BatchRun.

(** A client whose album endpoint answers on the third call, and one whose
    artist endpoint never answers. *)
Definition flaky_sp : spotify :=
  mksp (fun _ _ => Returned "tracks") (fun _ _ => Returned "features")
       (fun _ n => match n with
                   | 2%nat => Returned "album"
                   | _ => Raised (SpotifyException "429")
                   end)
       (fun _ _ => Raised (SpotifyException "429")).

(** A run in which the batch at index 100 exceeds the retries. *)
Definition third_batch_fails (start_index : Z) : outcome unit :=
  if start_index =? 100
  then Raised (MaxRetriesExceededException "Max retries reached for fetch_batch_tracks")
  else Returned tt.

(** ** spotify_api_batch_processing: one batch *)

(** Names bound at module level in [spotify_api_batch_processing]. *)
Definition batch_processing_globals : list string :=
  ["setup_logger"; "finalize_logger"; "read_and_process_track_csv";
   "get_batch_track_uris"; "MaxRetriesExceededException"; "get_spotify_client";
   "fetch_batch_tracks"; "fetch_audio_features"; "fetch_album"; "fetch_artist";
   "initialize_db"; "check_new_tracks_and_artists"; "insert_track_artist";
   "insert_new_track"; "insert_album"; "insert_artist"; "update_audio_features";
   "music_listening_history_table"; "tracks_table"; "track_artists_table";
   "artists_table"; "artist_genre_table"; "albums_table"; "track_mapping_table";
   "tracks_consolidated_table"; "select"; "and_"; "datetime"; "logging";
   "process_batch"; "handle_new_track_artists"; "handle_new_tracks";
   "handle_album"; "handle_artists"; "main"].

(** Names that [handle_new_tracks] binds. *)
Definition handle_new_tracks_locals : list string :=
  ["sp"; "conn"; "batch_tracks"; "af_batch_tracks"; "tracks_table";
   "albums_table"; "artists_table"; "artist_genre_table"; "logger"; "track";
   "audio_features"; "e"].

(** [handle_new_tracks]: [body] is the outcome of the [try] block (the
    inserts and the [fetch_album] and [fetch_artist] calls of the loop, then
    the commit); the handler formats a message that names [start_index] and
    [e] and raises again. *)
Definition handle_new_tracks (body : outcome unit) : outcome unit :=
  match body with
  | Returned v => Returned v
  | Raised e =>
      match eval_fstring handle_new_tracks_locals batch_processing_globals
                         ["start_index"; "e"] with
      | Returned _ => Raised e
      | Raised e' => Raised e'
      end
  end.

(** [handle_new_track_artists]: [body] is the outcome of its loop of
    inserts and of the commit after it; the function has no handler, so
    what the body raises leaves it. *)
Definition handle_new_track_artists (body : outcome unit) : outcome unit :=
  body.

(** What one batch meets: the two flags of [check_new_tracks_and_artists],
    the outcomes of the two wrapped batch calls, of the body of
    [handle_new_track_artists] and of the [try] block of
    [handle_new_tracks], in the order in which [process_batch] comes to
    them. *)
Record batch := mkbatch {
  batch_has_new_tracks : bool;
  batch_has_new_track_artists : bool;
  batch_tracks : outcome (option string);
  new_track_artists_body : outcome unit;
  af_batch_tracks : outcome (option string);
  new_tracks_body : outcome unit
}.

Definition process_batch (b : batch) : outcome unit :=
  if batch_has_new_tracks b || batch_has_new_track_artists b then
    match batch_tracks b with
    | Raised e => Raised e
    | Returned _ =>
        match (if batch_has_new_track_artists b
               then handle_new_track_artists (new_track_artists_body b)
               else Returned tt) with
        | Raised e => Raised e
        | Returned _ =>
            if batch_has_new_tracks b then
              match af_batch_tracks b with
              | Raised e => Raised e
              | Returned _ => handle_new_tracks (new_tracks_body b)
              end
            else Returned tt
        end
    end
  else Returned tt.

(** A batch in which nothing is new, and one in which [fetch_album], called
    inside [handle_new_tracks], gave up. *)
Definition nothing_new : batch :=
  mkbatch false false (Returned None) (Returned tt) (Returned None) (Returned tt).

Definition album_gave_up : batch :=
  mkbatch true true (Returned (Some "tracks")) (Returned tt)
          (Returned (Some "features"))
          (Raised (MaxRetriesExceededException "Max retries reached for fetch_album")).

(* ===================================================================== *)
(** * Helpers for the facts about the renaming *)
(* ===================================================================== *)

(** The dict [artist_counts] after the counting loop has gone through the
    names [seen]: a name is a key once it has been seen, with the number of
    times it has been seen. *)
Definition counts_match (artist_counts : gmap string Z) (seen : list string) : Prop :=
  forall n, artist_counts !! n =
            match count_occ String.string_dec seen n with
            | O => None
            | S k => Some (Z.of_nat (S k))
            end.

(** What the two UPDATEs of one turn of the loop make of a row of the
    artists table and of a row of the listening history. *)
Definition rename_artist (a : Artist.t) (row : Artist.t) : Artist.t :=
  if String.eqb (Artist.spotify_artist_id a) (Artist.spotify_artist_id row)
  then Artist.mk (Artist.spotify_artist_id a) (Artist.artist_name row) (Artist.followers a)
  else a.

Definition rename_play (h : Listening.t) (row : Artist.t) : Listening.t :=
  match Listening.spotify_artist_id h with
  | Some i =>
      if String.eqb i (Artist.spotify_artist_id row)
      then Listening.mk (Listening.music_stream_id h) (Listening.spotify_track_uri h)
                        (Listening.spotify_artist_id h) (Listening.spotify_album_id h)
                        (Artist.artist_name row)
      else h
  | None => h
  end.

(** An artist whose name no other artist carries. *)
Definition solo : Artist.t := Artist.mk "9" "Solo" 3.

Definition bobs_and_solo_db : database :=
  mkdb [] [] [] [] [] [] [] [] [bob_2; solo; bob_1] [].

(* ===================================================================== *)
(** * file_utils: the track frame and its batches *)
(* ===================================================================== *)

(** A row of the frame that [pd.read_csv] returns for the three columns of
    [usecols], in the order the file has them.  [None] is NaN: what
    [read_csv] has made of an empty cell or of one of its NA markers; how it
    parses the text of the file is not modelled. *)
Module CsvRow.
Record t := mk {
  Spotify_Track_URI : option string;
  Artist_Name : option string;
  Album_Name : option string
}.
End CsvRow.

(** A row of the frame after [df.columns = [...]]. *)
Module TrackFrame.
Record t := mk {
  spotify_track_uri : string;
  artist_name : option string;
  album_name : option string
}.
End TrackFrame.

(** [GroupBy.first()]: per column, the first cell of the group that is not
    NaN, and NaN when there is none. *)
Fixpoint groupby_first (cells : list (option string)) : option string :=
  match cells with
  | [] => None
  | Some v :: _ => Some v
  | None :: rest => groupby_first rest
  end.

(** The keys of [groupby(['Spotify Track URI'])]: rows whose key is NaN are
    dropped and the keys come out sorted. *)
Definition group_keys (df : list CsvRow.t) : list string :=
  order_by String.leb
    (nodup String.string_dec
       (flat_map (fun r => match CsvRow.Spotify_Track_URI r with
                           | Some uri => [uri]
                           | None => []
                           end) df)).

Definition group (df : list CsvRow.t) (uri : string) : list CsvRow.t :=
  filter (fun r => match CsvRow.Spotify_Track_URI r with
                   | Some u => String.eqb u uri
                   | None => false
                   end) df.

Definition read_and_process_track_csv (df : list CsvRow.t) : list TrackFrame.t :=
  map (fun uri =>
         TrackFrame.mk uri
           (groupby_first (map CsvRow.Artist_Name (group df uri)))
           (groupby_first (map CsvRow.Album_Name (group df uri))))
      (group_keys df).

(** An end of a slice [s[start:stop]] of a sequence of [len] items: a
    negative index counts from the end, and both are clipped to the
    sequence. *)
Definition slice_index (len i : Z) : Z :=
  if i <? 0 then Z.max (i + len) 0 else Z.min i len.

Definition slice {A : Type} (s : list A) (start stop : Z) : list A :=
  let lo := slice_index (Z.of_nat (length s)) start in
  let hi := slice_index (Z.of_nat (length s)) stop in
  firstn (Z.to_nat (hi - lo)) (skipn (Z.to_nat lo) s).

Definition get_batch_track_uris (track_df : list TrackFrame.t)
    (start_index batch_size : Z) : list string :=
  let end_index := Z.min (start_index + batch_size) (Z.of_nat (length track_df)) in
  slice (map TrackFrame.spotify_track_uri track_df) start_index end_index.

(** The batches of a run, as [main] cuts them. *)
Definition batches_of (track_df : list TrackFrame.t) (done : list Z) : list (list string) :=
  map (fun start_index => get_batch_track_uris track_df start_index batch_size) done.

(* ===================================================================== *)
(** * db_utils: is there anything new in a batch? *)
(* ===================================================================== *)

(** A row of [track_artists_test]. *)
Module TrackArtistRow.
Record t := mk {
  spotify_track_uri : string;
  spotify_track_id : string;
  spotify_artist_id : string
}.
End TrackArtistRow.

(** [Result.scalar()]: the first column of the first row, [None] when there
    is no row.  The first column of both tables is [spotify_track_uri]. *)
Definition scalar {Row : Type} (first_column : Row -> string) (rows : list Row)
    : option string :=
  option_map first_column (head rows).

(** The truth value Python gives [None] and a string. *)
Definition truthy (v : option string) : bool :=
  match v with
  | Some s => negb (String.eqb s EmptyString)
  | None => false
  end.

(** The [or_] over the audio-feature columns: one of them [IS NULL]. *)
Definition af_is_None (t : Track.t) : bool :=
  existsb (fun cell => match cell with None => true | Some _ => false end)
          (Track.audio t).

Section CheckNew.
Variable tracks_table : list Track.t.
Variable track_artists_table : list TrackArtistRow.t.

Definition track_exists (track_uri : string) : option string :=
  scalar Track.spotify_track_uri
         (filter (fun t => String.eqb (Track.spotify_track_uri t) track_uri) tracks_table).

Definition af_not_populated (track_uri : string) : option string :=
  scalar Track.spotify_track_uri
         (filter (fun t => String.eqb (Track.spotify_track_uri t) track_uri
                           && af_is_None t) tracks_table).

Definition track_artist_exists (track_uri : string) : option string :=
  scalar TrackArtistRow.spotify_track_uri
         (filter (fun r => String.eqb (TrackArtistRow.spotify_track_uri r) track_uri)
                 track_artists_table).

(** The [for] loop with its two flags and its [break]. *)
Fixpoint check_loop (batch_track_uris : list string)
    (batch_has_new_tracks batch_has_new_track_artists : bool) : bool * bool :=
  match batch_track_uris with
  | [] => (batch_has_new_tracks, batch_has_new_track_artists)
  | track_uri :: rest =>
      let new_tracks :=
        if negb (truthy (track_exists track_uri)) || truthy (af_not_populated track_uri)
        then true else batch_has_new_tracks in
      let new_track_artists :=
        if negb (truthy (track_artist_exists track_uri))
        then true else batch_has_new_track_artists in
      if new_tracks && new_track_artists
      then (new_tracks, new_track_artists)
      else check_loop rest new_tracks new_track_artists
  end.

Definition check_new_tracks_and_artists (batch_track_uris : list string) : bool * bool :=
  check_loop batch_track_uris false false.
End CheckNew.

(** A small file: two plays of one track, the first without an album name,
    a podcast line without a track URI, and two more tracks. *)
Definition listening_lines : list CsvRow.t :=
  [CsvRow.mk (Some "spotify:track:B") (Some "Band") None;
   CsvRow.mk None None None;
   CsvRow.mk (Some "spotify:track:C") (Some "Guest") (Some "Third");
   CsvRow.mk (Some "spotify:track:B") (Some "Band") (Some "Second");
   CsvRow.mk (Some "spotify:track:A") (Some "Band") (Some "First")].
(* ===================================================================== *)
(** * ORDER BY sorts and ROW_NUMBER numbers *)
(* ===================================================================== *)

Section OrderByFacts.
Context {A : Type} (leb : A -> A -> bool).

Lemma insert_by_perm x l : Permutation (x :: l) (insert_by leb x l).
Proof.
  induction l as [|y l IH]; simpl; [reflexivity|].
  destruct (leb x y); [reflexivity|].
  rewrite perm_swap. now constructor.
Qed.

Lemma order_by_perm l : Permutation l (order_by leb l).
Proof.
  induction l as [|x l IH]; simpl; [constructor|].
  rewrite <- insert_by_perm. now constructor.
Qed.

Lemma order_by_In x l : In x (order_by leb l) <-> In x l.
Proof.
  split; apply Permutation_in; [symmetry|]; apply order_by_perm.
Qed.

Hypothesis leb_total : forall a b, leb a b = true \/ leb b a = true.
Hypothesis leb_trans : forall a b c, leb a b = true -> leb b c = true -> leb a c = true.

Lemma insert_by_sorted x l :
  StronglySorted (fun a b => leb a b = true) l ->
  StronglySorted (fun a b => leb a b = true) (insert_by leb x l).
Proof.
  induction 1 as [|y l Hs IH Hy]; simpl.
  - repeat constructor.
  - destruct (leb x y) eqn:E.
    + constructor; [now constructor|].
      constructor; [exact E|].
      rewrite Forall_forall in *. eauto.
    + constructor; [exact IH|].
      rewrite Forall_forall in *. intros z Hz.
      apply (Permutation_in _ (Permutation_sym (insert_by_perm x l))) in Hz.
      destruct Hz as [<-|Hz]; [|now apply Hy].
      destruct (leb_total x y) as [H|H]; congruence.
Qed.

Lemma order_by_sorted l : StronglySorted (fun a b => leb a b = true) (order_by leb l).
Proof.
  induction l; simpl; [constructor|now apply insert_by_sorted].
Qed.
End OrderByFacts.

Section RowNumberFacts.
Context {A K : Type} (key : A -> K) (keqb : K -> K -> bool).
Hypothesis keqb_spec : forall a b, keqb a b = true <-> a = b.

Lemma number_rows_fst seen l : map fst (number_rows key keqb seen l) = l.
Proof.
  revert seen; induction l as [|r l IH]; intros seen; simpl; [reflexivity|].
  now rewrite IH.
Qed.

Lemma number_rows_In seen l r n : In (r, n) (number_rows key keqb seen l) -> In r l.
Proof.
  intros H. rewrite <- (number_rows_fst seen l).
  now apply (in_map fst) in H.
Qed.

Lemma filter_length_0 (f : A -> bool) l :
  length (filter f l) = 0%nat <-> forall s, In s l -> f s = false.
Proof.
  induction l as [|x l IH]; simpl.
  - split; [intros _ s []|reflexivity].
  - destruct (f x) eqn:E; simpl.
    + split; [discriminate|]. intros H. rewrite (H x) in E by now left. discriminate.
    + rewrite IH. split.
      * intros H s [<-|Hs]; auto.
      * intros H s Hs. apply H. now right.
Qed.

(** A row numbered 1 has no row of its partition before it. *)
Lemma rank1_unseen seen l c :
  In (c, 1%nat) (number_rows key keqb seen l) ->
  forall s, In s seen -> key s <> key c.
Proof.
  revert seen; induction l as [|r l IH]; intros seen; simpl; [intros []|].
  intros [H|H] s Hs.
  - inversion H; subst.
    assert (L : length (filter (fun s => keqb (key s) (key c)) seen) = 0%nat) by lia.
    rewrite filter_length_0 in L. specialize (L s Hs).
    intros E. apply keqb_spec in E. congruence.
  - apply (IH _ H). apply in_or_app. now left.
Qed.

(** Every partition that has a row has a row numbered 1. *)
Lemma rank1_exists seen l r :
  In r l -> (forall s, In s seen -> key s <> key r) ->
  exists c, In (c, 1%nat) (number_rows key keqb seen l) /\ key c = key r.
Proof.
  revert seen; induction l as [|r0 l IH]; intros seen; simpl; [intros []|].
  intros Hr Hseen.
  destruct (keqb (key r0) (key r)) eqn:E.
  - apply keqb_spec in E. exists r0. split; [|exact E]. left.
    f_equal. f_equal. apply filter_length_0. intros s Hs.
    destruct (keqb (key s) (key r0)) eqn:E'; [|reflexivity].
    apply keqb_spec in E'. exfalso. apply (Hseen s Hs). congruence.
  - destruct Hr as [->|Hr].
    + assert (keqb (key r) (key r) = true) by now apply keqb_spec.
      congruence.
    + destruct (IH (seen ++ [r0]) Hr) as (c & Hc & Hk).
      * intros s Hs. apply in_app_or in Hs. destruct Hs as [Hs|[<-|[]]]; auto.
        intros E'. apply keqb_spec in E'. congruence.
      * exists c. split; [now right|exact Hk].
Qed.

(** No partition has two rows numbered 1. *)
Lemma rank1_keys_NoDup seen l :
  NoDup (map (fun p => key (fst p)) (filter (rank_is 1) (number_rows key keqb seen l))).
Proof.
  revert seen; induction l as [|r l IH]; intros seen; simpl; [constructor|].
  destruct (rank_is 1 _) eqn:E; simpl; [|apply IH].
  constructor; [|apply IH].
  rewrite in_map_iff. intros ([c n] & Hk & Hin). simpl in Hk.
  apply filter_In in Hin. destruct Hin as [Hin Hn].
  unfold rank_is in Hn. simpl in Hn. apply Nat.eqb_eq in Hn. subst n.
  apply (rank1_unseen _ _ _ Hin r); [|congruence].
  apply in_or_app. right. now left.
Qed.

(** Along a sorted list the row numbered 1 is no greater than any row of
    its partition. *)
Lemma rank1_least (R : A -> A -> Prop) seen l c r :
  (forall a, R a a) -> StronglySorted R l ->
  In (c, 1%nat) (number_rows key keqb seen l) -> In r l -> key r = key c -> R c r.
Proof.
  intros Hrefl Hs. revert seen. induction Hs as [|r0 l Hs IH Hall]; intros seen; simpl; [intros []|].
  intros [H|H] Hr Hk.
  - inversion H; subst. destruct Hr as [->|Hr]; [apply Hrefl|].
    rewrite Forall_forall in Hall. now apply Hall.
  - destruct Hr as [->|Hr]; [|now apply (IH _ H)].
    exfalso. apply (rank1_unseen _ _ _ H r); [|exact Hk].
    apply in_or_app. right. now left.
Qed.
End RowNumberFacts.

(* ===================================================================== *)
(** * Facts about the mapping query *)
(* ===================================================================== *)

Lemma key_eqb_spec (k1 k2 : string * string * Z) : key_eqb k1 k2 = true <-> k1 = k2.
Proof.
  destruct k1 as [[a1 n1] g1], k2 as [[a2 n2] g2]. unfold key_eqb.
  rewrite !andb_true_iff, !String.eqb_eq, Z.eqb_eq.
  split; [intros [[-> ->] ->]; reflexivity|intros [= -> -> ->]; auto].
Qed.

Lemma self_join_on_refl t : self_join_on t t = true.
Proof.
  unfold self_join_on. rewrite !String.eqb_refl, Z.sub_diag. reflexivity.
Qed.

Lemma left_join_on_spec x y :
  left_join_on x y = true <-> partition_key (fst (fst x)) = partition_key y.
Proof.
  unfold left_join_on, partition_key, duration_ms_group.
  rewrite !andb_true_iff, !String.eqb_eq, Z.eqb_eq.
  split; [intros [[-> ->] ->]; reflexivity|intros [= -> -> ->]; auto].
Qed.

Lemma subquery_t_In t ts : In t (subquery_t ts) <-> In t ts.
Proof.
  unfold subquery_t, self_join. rewrite nodup_In, in_map_iff. split.
  - intros ([t1 t2] & <- & H). apply in_flat_map in H.
    destruct H as (t1' & H1 & H2). apply in_map_iff in H2.
    destruct H2 as (t2' & [= <- <-] & _). exact H1.
  - intros H. exists (t, t). split; [reflexivity|].
    apply in_flat_map. exists t. split; [exact H|].
    apply in_map. apply filter_In. split; [exact H|apply self_join_on_refl].
Qed.

Lemma album_join_In t a ts als :
  In (t, a) (album_join ts als) <->
  In t ts /\ In a als /\ Track.spotify_album_id t = Album.spotify_album_id a.
Proof.
  unfold album_join. rewrite in_flat_map. split.
  - intros (t' & Ht & H). apply in_map_iff in H. destruct H as (a' & [= <- <-] & H).
    apply filter_In in H. destruct H as [Ha E]. apply String.eqb_eq in E. auto.
  - intros (Ht & Ha & E). exists t. split; [exact Ht|].
    apply in_map. apply filter_In. split; [exact Ha|]. now apply String.eqb_eq.
Qed.

Lemma joined_rows_In t a db :
  In (t, a) (joined_rows db) <->
  In t (tracks db) /\ In a (albums db) /\
  Track.spotify_album_id t = Album.spotify_album_id a.
Proof. unfold joined_rows. now rewrite album_join_In, subquery_t_In. Qed.

(** ** The window order is a total preorder, strict between distinct ids *)

Lemma string_compare_refl s : String.compare s s = Eq.
Proof. now apply String_as_OT.cmp_eq. Qed.

Lemma string_compare_trans a b c :
  String.compare a b <> Gt -> String.compare b c <> Gt -> String.compare a c <> Gt.
Proof.
  intros H1 H2.
  destruct (String.compare a b) eqn:E1; [| |congruence].
  - apply String_as_OT.cmp_eq in E1. now subst.
  - destruct (String.compare b c) eqn:E2; [| |congruence].
    + apply String_as_OT.cmp_eq in E2. subst. now rewrite E1.
    + apply String_as_OT.cmp_lt in E1, E2.
      assert (L := String_as_OT.lt_trans _ _ _ E1 E2).
      apply String_as_OT.cmp_lt in L. unfold String_as_OT.cmp in L. now rewrite L.
Qed.

Lemma string_compare_total a b : String.compare a b <> Gt \/ String.compare b a <> Gt.
Proof.
  rewrite (String.compare_antisym b a).
  destruct (String.compare a b); simpl; auto; left + right; discriminate.
Qed.

Lemma window_leb_le r1 r2 :
  window_leb r1 r2 = true <-> key_le (window_key r1) (window_key r2).
Proof.
  unfold window_leb, window_cmp, window_key, key_le, then_by.
  destruct (Z.compare_spec (album_type_rank (snd r1)) (album_type_rank (snd r2)));
  destruct (Z.compare_spec (Track.track_popularity (fst r2)) (Track.track_popularity (fst r1)));
  destruct (Z.compare_spec (Album.release_date (snd r1)) (Album.release_date (snd r2)));
  destruct (String.compare (Track.spotify_track_id (fst r1)) (Track.spotify_track_id (fst r2)));
  split; intros; try discriminate; try lia; try reflexivity;
  try (right; split; [lia|]); try (left; lia);
  try (right; split; [lia|]); try (left; lia);
  try (right; split; [lia|]); try discriminate;
  repeat match goal with
  | H : _ \/ _ |- _ => destruct H
  | H : _ /\ _ |- _ => destruct H
  end; try lia; congruence.
Qed.

Lemma window_leb_total r1 r2 : window_leb r1 r2 = true \/ window_leb r2 r1 = true.
Proof.
  rewrite !window_leb_le. unfold key_le, window_key.
  destruct (string_compare_total (Track.spotify_track_id (fst r1))
                                 (Track.spotify_track_id (fst r2))).
  - destruct (Z_lt_le_dec (album_type_rank (snd r2)) (album_type_rank (snd r1))); [right; lia|].
    destruct (Z_lt_le_dec (album_type_rank (snd r1)) (album_type_rank (snd r2))); [left; lia|].
    destruct (Z_lt_le_dec (- Track.track_popularity (fst r2)) (- Track.track_popularity (fst r1))); [right; lia|].
    destruct (Z_lt_le_dec (- Track.track_popularity (fst r1)) (- Track.track_popularity (fst r2))); [left; lia|].
    destruct (Z_lt_le_dec (Album.release_date (snd r2)) (Album.release_date (snd r1))); [right; lia|].
    destruct (Z_lt_le_dec (Album.release_date (snd r1)) (Album.release_date (snd r2))); [left; lia|].
    left. right. split; [lia|]. right. split; [lia|]. right. split; [lia|]. assumption.
  - destruct (Z_lt_le_dec (album_type_rank (snd r2)) (album_type_rank (snd r1))); [right; lia|].
    destruct (Z_lt_le_dec (album_type_rank (snd r1)) (album_type_rank (snd r2))); [left; lia|].
    destruct (Z_lt_le_dec (- Track.track_popularity (fst r2)) (- Track.track_popularity (fst r1))); [right; lia|].
    destruct (Z_lt_le_dec (- Track.track_popularity (fst r1)) (- Track.track_popularity (fst r2))); [left; lia|].
    destruct (Z_lt_le_dec (Album.release_date (snd r2)) (Album.release_date (snd r1))); [right; lia|].
    destruct (Z_lt_le_dec (Album.release_date (snd r1)) (Album.release_date (snd r2))); [left; lia|].
    right. right. split; [lia|]. right. split; [lia|]. right. split; [lia|]. assumption.
Qed.

Lemma key_le_trans k1 k2 k3 : key_le k1 k2 -> key_le k2 k3 -> key_le k1 k3.
Proof.
  destruct k1 as [[[a1 b1] c1] s1], k2 as [[[a2 b2] c2] s2], k3 as [[[a3 b3] c3] s3].
  unfold key_le. intros H1 H2.
  destruct H1 as [H1|[Ea [H1|[Eb [H1|[Ec H1]]]]]];
  destruct H2 as [H2|[Ea' [H2|[Eb' [H2|[Ec' H2]]]]]];
  try (left; lia);
  try (right; split; [lia|left; lia]);
  try (right; split; [lia|right; split; [lia|left; lia]]).
  right; split; [lia|right; split; [lia|right; split; [lia|]]].
  now apply (string_compare_trans s1 s2 s3).
Qed.

Lemma window_leb_trans r1 r2 r3 :
  window_leb r1 r2 = true -> window_leb r2 r3 = true -> window_leb r1 r3 = true.
Proof. rewrite !window_leb_le. apply key_le_trans. Qed.

Lemma window_leb_refl r : window_leb r r = true.
Proof. destruct (window_leb_total r r); assumption. Qed.



(** ** Canonical rows *)

Lemma subquery_x_joined db r n : In (r, n) (subquery_x db) -> In r (joined_rows db).
Proof.
  unfold subquery_x. intros H. apply number_rows_In in H.
  now apply order_by_In in H.
Qed.

Lemma canonical_rows_rank1 db c :
  In c (canonical_rows db) <-> In (c, 1%nat) (subquery_x db).
Proof.
  unfold canonical_rows. rewrite in_map_iff. split.
  - intros ([c' n] & <- & H). apply filter_In in H. destruct H as [H E].
    unfold rank_is in E. simpl in *. apply Nat.eqb_eq in E. now subst.
  - intros H. exists (c, 1%nat). split; [reflexivity|].
    apply filter_In. split; [exact H|reflexivity].
Qed.

Lemma canonical_rows_joined db c : In c (canonical_rows db) -> In c (joined_rows db).
Proof. rewrite canonical_rows_rank1. apply subquery_x_joined. Qed.

Lemma canonical_rows_exists db r :
  In r (joined_rows db) -> exists c, In c (canonical_rows db) /\ row_key c = row_key r.
Proof.
  intros H.
  destruct (rank1_exists (fun r => partition_key (fst r)) key_eqb key_eqb_spec []
              (order_by window_leb (joined_rows db)) r) as (c & Hc & Hk).
  - now apply order_by_In.
  - intros s [].
  - exists c. split; [|exact Hk]. now apply canonical_rows_rank1.
Qed.

Lemma canonical_rows_keys_NoDup db : NoDup (map row_key (canonical_rows db)).
Proof.
  unfold canonical_rows. rewrite map_map.
  apply (rank1_keys_NoDup (fun r => partition_key (fst r)) key_eqb key_eqb_spec).
Qed.

Lemma canonical_rows_unique db c c' :
  In c (canonical_rows db) -> In c' (canonical_rows db) -> row_key c = row_key c' -> c = c'.
Proof.
  intros H H' E. assert (N := canonical_rows_keys_NoDup db).
  revert N H H'. generalize (canonical_rows db) as l.
  induction l as [|x l IH]; simpl; [intros _ []|].
  intros N. inversion N as [|? ? Hx Hl]; subst.
  intros [<-|H] [<-|H']; auto.
  - exfalso. apply Hx. rewrite E. now apply in_map.
  - exfalso. apply Hx. rewrite <- E. now apply in_map.
Qed.

Lemma canonical_rows_least db c r :
  In c (canonical_rows db) -> In r (joined_rows db) -> row_key r = row_key c ->
  window_leb c r = true.
Proof.
  intros Hc Hr Hk. apply canonical_rows_rank1 in Hc.
  apply (rank1_least (fun r => partition_key (fst r)) key_eqb key_eqb_spec
           (fun a b => window_leb a b = true) []
           (order_by window_leb (joined_rows db)) c r).
  - apply window_leb_refl.
  - apply order_by_sorted; [apply window_leb_total|apply window_leb_trans].
  - exact Hc.
  - now apply order_by_In.
  - exact Hk.
Qed.

(** ** The selected rows, canonical row by canonical row *)

Lemma select_one_row (x : Track.t * Album.t * nat) (l : list Track.t) :
  map (fun j : Track.t * Album.t * nat * option Track.t =>
         let x := fst (fst (fst j)) in
         Mapping.mk (COALESCE (option_map Track.spotify_track_uri (snd j))
                              (Track.spotify_track_uri x))
                    (Track.spotify_track_uri x))
      (filter (fun j => Nat.eqb (snd (fst j)) 1)
              (map (fun y => (x, Some y)) l))
  = if rank_is 1 x
    then map (fun y => Mapping.mk (Track.spotify_track_uri y)
                                  (Track.spotify_track_uri (fst (fst x)))) l
    else [].
Proof.
  unfold rank_is. induction l as [|y l IH]; simpl.
  - now destruct (Nat.eqb (snd x) 1).
  - destruct (Nat.eqb (snd x) 1) eqn:E; simpl; [now rewrite IH|exact IH].
Qed.

Lemma select_by_rows (ts : list Track.t) (xs : list (Track.t * Album.t * nat)) :
  (forall x, In x xs -> In (fst (fst x)) ts) ->
  map (fun j : Track.t * Album.t * nat * option Track.t =>
         let x := fst (fst (fst j)) in
         Mapping.mk (COALESCE (option_map Track.spotify_track_uri (snd j))
                              (Track.spotify_track_uri x))
                    (Track.spotify_track_uri x))
      (filter (fun j => Nat.eqb (snd (fst j)) 1)
              (left_outer_join left_join_on xs ts))
  = flat_map (mapping_rows_of ts) (filter (rank_is 1) xs).
Proof.
  induction xs as [|x xs IH]; intros Hin; [reflexivity|].
  specialize (IH (fun x H => Hin x (or_intror H))).
  assert (Hm : In (fst (fst x)) (filter (left_join_on x) ts)).
  { apply filter_In. split; [apply Hin; now left|]. now apply left_join_on_spec. }
  change (left_outer_join left_join_on (x :: xs) ts) with
    (match filter (left_join_on x) ts with
     | [] => [(x, None)]
     | m => map (fun y => (x, Some y)) m
     end ++ left_outer_join left_join_on xs ts).
  rewrite filter_app, map_app, IH. clear IH.
  replace (match filter (left_join_on x) ts with
           | [] => [(x, None)]
           | m => map (fun y => (x, Some y)) m
           end)
    with (map (fun y => (x, @Some Track.t y)) (filter (left_join_on x) ts))
    by (destruct (filter (left_join_on x) ts); [destruct Hm|reflexivity]).
  rewrite select_one_row. simpl filter.
  destruct (rank_is 1 x); reflexivity.
Qed.

Lemma track_mapping_select_eq db :
  track_mapping_select db =
  flat_map (mapping_rows_of (tracks db)) (filter (rank_is 1) (subquery_x db)).
Proof.
  unfold track_mapping_select. apply select_by_rows.
  intros [[t a] n] H. apply subquery_x_joined in H.
  apply joined_rows_In in H. simpl. tauto.
Qed.

(** A row is selected exactly when it pairs a track of the table with the
    canonical row of that track's partition. *)
Lemma track_mapping_select_In db m :
  In m (track_mapping_select db) <->
  exists c y, In c (canonical_rows db) /\ In y (tracks db) /\
              partition_key y = row_key c /\
              m = Mapping.mk (Track.spotify_track_uri y)
                             (Track.spotify_track_uri (fst c)).
Proof.
  rewrite track_mapping_select_eq, in_flat_map. split.
  - intros ([c n] & Hx & Hm). apply filter_In in Hx. destruct Hx as [Hx E].
    unfold rank_is in E. simpl in E. apply Nat.eqb_eq in E. subst n.
    unfold mapping_rows_of in Hm. apply in_map_iff in Hm.
    destruct Hm as (y & <- & Hy). apply filter_In in Hy. destruct Hy as [Hy Hon].
    apply left_join_on_spec in Hon.
    exists c, y. repeat split; auto. now apply canonical_rows_rank1.
  - intros (c & y & Hc & Hy & Hk & ->). exists (c, 1%nat). split.
    + apply filter_In. split; [now apply canonical_rows_rank1|reflexivity].
    + unfold mapping_rows_of. apply in_map_iff. exists y. split; [reflexivity|].
      apply filter_In. split; [exact Hy|]. apply left_join_on_spec. now symmetry.
Qed.

(** ** Keys of the source tables and of the result *)

Lemma NoDup_map_eq {A B : Type} (f : A -> B) (l : list A) x y :
  NoDup (map f l) -> In x l -> In y l -> f x = f y -> x = y.
Proof.
  induction l as [|z l IH]; simpl; [intros _ []|].
  intros N. inversion N as [|? ? Hz Hl]; subst.
  intros [<-|Hx] [<-|Hy] E; auto.
  - exfalso. apply Hz. rewrite E. now apply in_map.
  - exfalso. apply Hz. rewrite <- E. now apply in_map.
Qed.

(** A column that is a key of a table is a key of every selection of it. *)
Lemma key_of_selection {Row Col : Type} (column : Row -> Col) (keep : Row -> bool)
    (rows : list Row) :
  NoDup (map column rows) -> NoDup (map column (filter keep rows)).
Proof.
  induction rows as [|r rows IH]; simpl; [auto|].
  intros N. inversion N as [|? ? Hr Hrows]; subst.
  destruct (keep r); simpl; [|auto].
  constructor; [|auto]. intros H. apply Hr.
  apply in_map_iff in H. destruct H as (y & E & Hy).
  apply filter_In in Hy. rewrite <- E. apply in_map. tauto.
Qed.

Lemma NoDup_flat_map {A B K : Type} (f : A -> list B) (k : A -> K) (l : list A) :
  NoDup (map k l) ->
  (forall x, In x l -> NoDup (f x)) ->
  (forall x x' y, In x l -> In x' l -> In y (f x) -> In y (f x') -> k x = k x') ->
  NoDup (flat_map f l).
Proof.
  induction l as [|z l IH]; simpl; [constructor|].
  intros N Hf Hk. inversion N as [|? ? Hz Hl]; subst.
  apply NoDup_app.
  - apply Hf. now left.
  - apply IH; auto. intros x x' y Hx Hx'. apply Hk; now right.
  - intros y Hy Hy'. apply in_flat_map in Hy'. destruct Hy' as (x & Hx & Hyx).
    apply Hz. rewrite (Hk z x y); auto. now apply in_map.
Qed.

Lemma unique_keys_NoDup (l : list string) : unique_keys l = true <-> NoDup l.
Proof.
  induction l as [|k l IH]; simpl.
  - split; [constructor|reflexivity].
  - rewrite andb_true_iff, negb_true_iff, IH. split.
    + intros [H N]. constructor; [|exact N]. intros Hin.
      assert (E : existsb (String.eqb k) l = true).
      { apply existsb_exists. exists k. split; [exact Hin|apply String.eqb_refl]. }
      congruence.
    + intros N. inversion N as [|? ? Hk Hl]; subst. split; [|exact Hl].
      destruct (existsb (String.eqb k) l) eqn:E; [|reflexivity].
      apply existsb_exists in E. destruct E as (k' & Hin & E).
      apply String.eqb_eq in E. now subst.
Qed.

Lemma project_flat_map {Row Part Col : Type} (column : Part -> Col)
    (expand : Row -> list Part) (rows : list Row) :
  map column (flat_map expand rows) = flat_map (fun r => map column (expand r)) rows.
Proof.
  induction rows as [|r rows IH]; simpl; [reflexivity|]. now rewrite map_app, IH.
Qed.

(** With distinct track URIs no URI is selected twice as [old_track_uri]. *)
Lemma select_keys_NoDup db :
  track_uris_distinct db ->
  NoDup (map Mapping.old_track_uri (track_mapping_select db)).
Proof.
  intros U. rewrite track_mapping_select_eq, project_flat_map.
  apply (NoDup_flat_map _ (fun x => partition_key (fst (fst x)))).
  - apply (rank1_keys_NoDup (fun r => partition_key (fst r)) key_eqb key_eqb_spec).
  - intros x _. unfold mapping_rows_of. rewrite map_map. simpl.
    now apply key_of_selection.
  - intros x x' u _ _. unfold mapping_rows_of. rewrite !map_map. simpl.
    rewrite !in_map_iff. intros (y & <- & Hy) (y' & E & Hy').
    apply filter_In in Hy, Hy'. destruct Hy as [Hy Hk], Hy' as [Hy' Hk'].
    apply left_join_on_spec in Hk, Hk'.
    assert (y' = y) by (apply (NoDup_map_eq _ _ _ _ U); auto).
    subst. congruence.
Qed.

Lemma TRACK_MAPPING_QUERY_runs db :
  track_uris_distinct db ->
  TRACK_MAPPING_QUERY db = Some (set_track_mapping_test (track_mapping_select db) db).
Proof.
  intros U. unfold TRACK_MAPPING_QUERY.
  now rewrite (proj2 (unique_keys_NoDup _) (select_keys_NoDup db U)).
Qed.

Lemma TRACK_MAPPING_QUERY_table db db' :
  TRACK_MAPPING_QUERY db = Some db' ->
  track_mapping_test db' = track_mapping_select db.
Proof.
  unfold TRACK_MAPPING_QUERY. destruct (unique_keys _); [|discriminate].
  now intros [= <-].
Qed.

(** Every track of a partition that joins an album is paired with the one
    canonical row of the partition. *)
Lemma group_mapped db t :
  In t (tracks db) ->
  (exists t', In t' (tracks db) /\ partition_key t' = partition_key t /\ has_album db t') ->
  exists c, In c (canonical_rows db) /\ row_key c = partition_key t /\
            In (Mapping.mk (Track.spotify_track_uri t)
                           (Track.spotify_track_uri (fst c)))
               (track_mapping_select db).
Proof.
  intros Ht (t' & Ht' & Hk & a & Ha & Ea).
  destruct (canonical_rows_exists db (t', a)) as (c & Hc & Hck).
  { apply joined_rows_In. auto. }
  unfold row_key in Hck at 2. simpl in Hck.
  exists c. split; [exact Hc|]. split; [congruence|].
  apply track_mapping_select_In. exists c, t. repeat split; auto. congruence.
Qed.


(* ===================================================================== *)
(** * Canonical-track selection (C1) *)
(* ===================================================================== *)

(** Under the table keys, distinct joined rows carry distinct track ids. *)
Lemma joined_rows_ids db r r' :
  tracks_keyed db -> albums_keyed db ->
  In r (joined_rows db) -> In r' (joined_rows db) -> r <> r' ->
  Track.spotify_track_id (fst r) <> Track.spotify_track_id (fst r').
Proof.
  intros Tk Ak Hr Hr' Hne E. destruct r as [t a], r' as [t' a'].
  apply joined_rows_In in Hr, Hr'. simpl in E.
  destruct Hr as (Ht & Ha & Ea), Hr' as (Ht' & Ha' & Ea').
  assert (t = t') by (apply (NoDup_map_eq _ _ _ _ Tk); auto). subst t'.
  assert (a = a') by (apply (NoDup_map_eq _ _ _ _ Ak); auto; congruence).
  subst. now apply Hne.
Qed.

Lemma duration_ms_group_180000 : duration_ms_group 180000 = 180000.
Proof. reflexivity. Qed.

Lemma duration_ms_group_181500 : duration_ms_group 181500 = 180000.
Proof. reflexivity. Qed.





(* ===================================================================== *)
(** * The mapping as a function on URIs (C2, C3, C4) *)
(* ===================================================================== *)

(** A selected row whose key is the URI of a track of the table pairs that
    very track with the canonical row of its partition. *)
Lemma select_row_of_track db m t :
  track_uris_distinct db -> In m (track_mapping_select db) -> In t (tracks db) ->
  Mapping.old_track_uri m = Track.spotify_track_uri t ->
  exists c, In c (canonical_rows db) /\ row_key c = partition_key t /\
            Mapping.new_track_uri m = Track.spotify_track_uri (fst c).
Proof.
  intros U Hm Ht E. apply track_mapping_select_In in Hm.
  destruct Hm as (c & y & Hc & Hy & Hk & ->). simpl in E.
  assert (y = t) by (apply (NoDup_map_eq _ _ _ _ U); auto). subst y.
  exists c. auto.
Qed.

Lemma canonical_row_track db c : In c (canonical_rows db) -> In (fst c) (tracks db).
Proof.
  intros H. apply canonical_rows_joined in H. destruct c as [t a].
  apply joined_rows_In in H. simpl. tauto.
Qed.

Lemma canonical_row_has_album db c : In c (canonical_rows db) -> has_album db (fst c).
Proof.
  intros H. apply canonical_rows_joined in H. destruct c as [t a].
  apply joined_rows_In in H. exists a. simpl. tauto.
Qed.

(** C2.  With distinct track URIs the rebuild succeeds, and in the rebuilt
    table every track with a matching album row is a key exactly once, two
    tracks of one partition never get different targets, and every
    canonical track (hence every target) is mapped to itself. *)
Theorem mapping_total_and_idempotent db :
  track_uris_distinct db ->
  exists db', TRACK_MAPPING_QUERY db = Some db' /\
    (forall t, In t (tracks db) -> has_album db t ->
       count_occ String.string_dec (map Mapping.old_track_uri (track_mapping_test db'))
                 (Track.spotify_track_uri t) = 1%nat) /\
    (forall t1 t2 m1 m2,
       In t1 (tracks db) -> In t2 (tracks db) ->
       partition_key t1 = partition_key t2 ->
       In m1 (track_mapping_test db') -> In m2 (track_mapping_test db') ->
       Mapping.old_track_uri m1 = Track.spotify_track_uri t1 ->
       Mapping.old_track_uri m2 = Track.spotify_track_uri t2 ->
       Mapping.new_track_uri m1 = Mapping.new_track_uri m2) /\
    (forall c, In c (canonical_rows db) ->
       In (Mapping.mk (Track.spotify_track_uri (fst c))
                      (Track.spotify_track_uri (fst c)))
          (track_mapping_test db')) /\
    (forall m, In m (track_mapping_test db') ->
       In (Mapping.mk (Mapping.new_track_uri m) (Mapping.new_track_uri m))
          (track_mapping_test db')).
Proof.
  intros U. eexists. split; [now apply TRACK_MAPPING_QUERY_runs|]. simpl.
  assert (Self : forall c, In c (canonical_rows db) ->
            In (Mapping.mk (Track.spotify_track_uri (fst c))
                           (Track.spotify_track_uri (fst c)))
               (track_mapping_select db)).
  { intros c Hc. apply track_mapping_select_In. exists c, (fst c).
    repeat split; auto using canonical_row_track. }
  split; [|split; [|split]].
  - intros t Ht Ha. apply NoDup_count_occ'; [now apply select_keys_NoDup|].
    destruct (group_mapped db t Ht) as (c & _ & _ & Hm); [now exists t|].
    apply in_map_iff. eexists. split; [|exact Hm]. reflexivity.
  - intros t1 t2 m1 m2 H1 H2 Hk Hm1 Hm2 E1 E2.
    destruct (select_row_of_track db m1 t1 U Hm1 H1 E1) as (c1 & Hc1 & Hk1 & ->).
    destruct (select_row_of_track db m2 t2 U Hm2 H2 E2) as (c2 & Hc2 & Hk2 & ->).
    rewrite (canonical_rows_unique db c1 c2); auto. congruence.
  - exact Self.
  - intros m Hm. apply track_mapping_select_In in Hm.
    destruct Hm as (c & y & Hc & _ & _ & ->). simpl. now apply Self.
Qed.

Lemma two_release_db_uris : track_uris_distinct two_release_db.
Proof.
  unfold track_uris_distinct. simpl. repeat constructor; simpl; intuition discriminate.
Qed.

Lemma mapping_total_and_idempotent_witness :
  track_uris_distinct two_release_db /\
  exists db', TRACK_MAPPING_QUERY two_release_db = Some db' /\
    count_occ String.string_dec (map Mapping.old_track_uri (track_mapping_test db'))
              "spotify:track:B" = 1%nat /\
    In (Mapping.mk "spotify:track:A" "spotify:track:A") (track_mapping_test db').
Proof.
  split; [exact two_release_db_uris|].
  destruct (mapping_total_and_idempotent two_release_db two_release_db_uris)
    as (db' & Run & Once & _ & Self & _).
  exists db'. split; [exact Run|]. split.
  - apply (Once track_B); [simpl; now left|].
    exists album_B. split; [simpl; now left|reflexivity].
  - apply (Self (track_A, album_A)).
    apply canonical_rows_rank1. vm_compute. now left.
Defined.

(** The claim C3 as the spec words it fails: a track without an album row
    that shares its partition with a track that has one is a mapping key. *)
Lemma albumless_track_is_mapped :
  In track_C (tracks missing_album_db) /\
  ~ has_album missing_album_db track_C /\
  exists db', TRACK_MAPPING_QUERY missing_album_db = Some db' /\
    In (Mapping.mk (Track.spotify_track_uri track_C) (Track.spotify_track_uri track_A))
       (track_mapping_test db').
Proof.
  split; [simpl; now left|]. split.
  - intros (a & Ha & E). simpl in Ha. destruct Ha as [<-|[]]. discriminate.
  - eexists. split; [vm_compute; reflexivity|]. simpl. now left.
Qed.

(** C3, amended.  A track without a matching album row is never a mapping
    value; it is a mapping key exactly when some track of its partition
    (same primary artist, name and duration bucket) has a matching album
    row, and then its target is that partition's canonical track. *)
Theorem albumless_track_mapping db t :
  track_uris_distinct db -> In t (tracks db) -> ~ has_album db t ->
  exists db', TRACK_MAPPING_QUERY db = Some db' /\
    (forall m, In m (track_mapping_test db') ->
       Mapping.new_track_uri m <> Track.spotify_track_uri t) /\
    ((exists m, In m (track_mapping_test db') /\
                Mapping.old_track_uri m = Track.spotify_track_uri t)
     <-> (exists t', In t' (tracks db) /\ partition_key t' = partition_key t /\
                     has_album db t')) /\
    (forall m, In m (track_mapping_test db') ->
       Mapping.old_track_uri m = Track.spotify_track_uri t ->
       exists c, In c (canonical_rows db) /\ row_key c = partition_key t /\
                 Mapping.new_track_uri m = Track.spotify_track_uri (fst c)).
Proof.
  intros U Ht Hno. eexists. split; [now apply TRACK_MAPPING_QUERY_runs|]. simpl.
  split; [|split].
  - intros m Hm E. apply track_mapping_select_In in Hm.
    destruct Hm as (c & y & Hc & _ & _ & ->). simpl in E.
    assert (fst c = t).
    { apply (NoDup_map_eq _ _ _ _ U); auto using canonical_row_track. }
    subst t. apply Hno. now apply canonical_row_has_album.
  - split.
    + intros (m & Hm & E).
      destruct (select_row_of_track db m t U Hm Ht E) as (c & Hc & Hk & _).
      exists (fst c). auto using canonical_row_track, canonical_row_has_album.
    + intros H. destruct (group_mapped db t Ht H) as (c & _ & _ & Hm).
      eexists. split; [exact Hm|reflexivity].
  - intros m Hm E. now apply (select_row_of_track db m t U).
Qed.

Lemma albumless_track_mapping_witness :
  exists db', TRACK_MAPPING_QUERY missing_album_db = Some db' /\
    (forall m, In m (track_mapping_test db') ->
       Mapping.new_track_uri m <> "spotify:track:C").
Proof.
  destruct (albumless_track_mapping missing_album_db track_C)
    as (db' & Run & NoValue & _).
  - unfold track_uris_distinct. simpl. repeat constructor; simpl; intuition discriminate.
  - simpl. now left.
  - intros (a & Ha & E). simpl in Ha. destruct Ha as [<-|[]]. discriminate.
  - exists db'. split; [exact Run|exact NoValue].
Defined.

(** C4.  Two tracks of one name and primary artist whose durations differ
    by at most 3000 ms but whose buckets [duration_ms - duration_ms mod 3000]
    differ lie in different partitions, and whatever targets the mapping
    gives them are different. *)
Theorem bucket_boundary_miss db t1 t2 :
  track_uris_distinct db -> In t1 (tracks db) -> In t2 (tracks db) ->
  Track.track_name t1 = Track.track_name t2 ->
  Track.spotify_artist_id t1 = Track.spotify_artist_id t2 ->
  Z.abs (Track.duration_ms t1 - Track.duration_ms t2) <= 3000 ->
  duration_ms_group (Track.duration_ms t1) <> duration_ms_group (Track.duration_ms t2) ->
  partition_key t1 <> partition_key t2 /\
  exists db', TRACK_MAPPING_QUERY db = Some db' /\
    forall m1 m2, In m1 (track_mapping_test db') -> In m2 (track_mapping_test db') ->
      Mapping.old_track_uri m1 = Track.spotify_track_uri t1 ->
      Mapping.old_track_uri m2 = Track.spotify_track_uri t2 ->
      Mapping.new_track_uri m1 <> Mapping.new_track_uri m2.
Proof.
  intros U H1 H2 _ _ _ Hg.
  assert (Hk : partition_key t1 <> partition_key t2).
  { unfold partition_key. intros [= _ _ E]. now apply Hg. }
  split; [exact Hk|].
  eexists. split; [now apply TRACK_MAPPING_QUERY_runs|]. simpl.
  intros m1 m2 Hm1 Hm2 E1 E2 E.
  destruct (select_row_of_track db m1 t1 U Hm1 H1 E1) as (c1 & Hc1 & Hk1 & N1).
  destruct (select_row_of_track db m2 t2 U Hm2 H2 E2) as (c2 & Hc2 & Hk2 & N2).
  assert (fst c1 = fst c2).
  { apply (NoDup_map_eq _ _ _ _ U); auto using canonical_row_track. congruence. }
  apply Hk. unfold row_key in *. congruence.
Qed.

Lemma bucket_boundary_miss_witness :
  partition_key track_D <> partition_key track_A /\
  exists db', TRACK_MAPPING_QUERY boundary_db = Some db' /\
    In (Mapping.mk "spotify:track:D" "spotify:track:D") (track_mapping_test db') /\
    In (Mapping.mk "spotify:track:A" "spotify:track:A") (track_mapping_test db').
Proof.
  destruct (bucket_boundary_miss boundary_db track_D track_A) as (Hk & db' & Run & _).
  - unfold track_uris_distinct. simpl. repeat constructor; simpl; intuition discriminate.
  - simpl. now left.
  - simpl. right. now left.
  - reflexivity.
  - reflexivity.
  - simpl. lia.
  - vm_compute. discriminate.
  - split; [exact Hk|]. exists db'. split; [exact Run|].
    assert (E : TRACK_MAPPING_QUERY boundary_db =
                Some (set_track_mapping_test
                        [Mapping.mk "spotify:track:A" "spotify:track:A";
                         Mapping.mk "spotify:track:D" "spotify:track:D"] boundary_db))
      by (vm_compute; reflexivity).
    rewrite E in Run. injection Run as <-. simpl. auto.
Defined.

(* ===================================================================== *)
(** * Consolidated tracks (C6) *)
(* ===================================================================== *)

Lemma artist_join_In db ta a t :
  In (ta, a, t) (artist_join db) <->
  In ta (track_artists db) /\ In a (artists db) /\ In t (tracks db) /\
  TrackArtist.spotify_artist_id ta = Artist.spotify_artist_id a /\
  TrackArtist.spotify_track_id ta = Track.spotify_track_id t.
Proof.
  unfold artist_join. rewrite in_flat_map. split.
  - intros (ta' & Hta & H). apply in_flat_map in H. destruct H as (a' & Ha & H).
    apply in_map_iff in H. destruct H as (t' & [= <- <- <-] & Ht).
    apply filter_In in Ha, Ht. destruct Ha as [Ha Ea], Ht as [Ht Et].
    apply String.eqb_eq in Ea, Et. auto.
  - intros (Hta & Ha & Ht & Ea & Et). exists ta. split; [exact Hta|].
    apply in_flat_map. exists a. split.
    + apply filter_In. split; [exact Ha|]. now apply String.eqb_eq.
    + apply in_map_iff. exists t. split; [reflexivity|].
      apply filter_In. split; [exact Ht|]. now apply String.eqb_eq.
Qed.

Lemma aggregated_rows_In db track_id r :
  In r (aggregated_rows db track_id) <->
  In r (artist_join db) /\ TrackArtist.spotify_track_id (fst (fst r)) = track_id.
Proof.
  unfold aggregated_rows. now rewrite order_by_In, filter_In, String.eqb_eq.
Qed.




(** The names of the aggregate are those of the associated artists. *)
Lemma aggregated_names_In db t n :
  In t (tracks db) ->
  In n (aggregated_names db (Track.spotify_track_id t)) <->
  exists a, associated_artist db (Track.spotify_track_id t) a /\ n = Artist.artist_name a.
Proof.
  intros Ht. unfold aggregated_names, associated_artist. rewrite in_map_iff. split.
  - intros ([[ta a] t'] & <- & H). apply aggregated_rows_In in H.
    destruct H as [H E]. apply artist_join_In in H. simpl in *.
    exists a. split; [|reflexivity]. split; [tauto|]. exists ta. tauto.
  - intros (a & (Ha & ta & Hta & Et & Ea) & ->). exists (ta, a, t).
    split; [reflexivity|]. apply aggregated_rows_In. split; [|exact Et].
    apply artist_join_In. auto.
Qed.


Lemma subquery_an_In db track_id names :
  In (track_id, names) (subquery_an db) <->
  names = STRING_AGG ", " (aggregated_names db track_id) /\
  exists r, In r (artist_join db) /\
            TrackArtist.spotify_track_id (fst (fst r)) = track_id.
Proof.
  unfold subquery_an. rewrite in_map_iff. split.
  - intros (i & [= <- <-] & H). apply nodup_In in H. apply in_map_iff in H.
    destruct H as (r & E & Hr). split; [reflexivity|]. now exists r.
  - intros (-> & r & Hr & E). exists track_id. split; [reflexivity|].
    apply nodup_In. apply in_map_iff. now exists r.
Qed.

Lemma tracks_consolidated_select_In db r :
  In r (tracks_consolidated_select db) <->
  In (Consolidated.track r) (tracks db) /\
  is_mapping_target db (Consolidated.track r) /\
  In (Track.spotify_track_id (Consolidated.track r), Consolidated.artist_names r)
     (subquery_an db).
Proof.
  unfold tracks_consolidated_select, is_mapping_target.
  rewrite nodup_In, in_flat_map. split.
  - intros (t & Ht & H). apply in_flat_map in H. destruct H as (tm & Htm & H).
    apply in_map_iff in H. destruct H as ([i names] & <- & Han).
    apply filter_In in Htm, Han. destruct Htm as [Htm Etm], Han as [Han Ean].
    apply String.eqb_eq in Etm, Ean. simpl in *. subst i.
    split; [exact Ht|]. split; [|exact Han]. exists tm. auto.
  - intros (Ht & (tm & Htm & Etm) & Han). destruct r as [t names]. simpl in *.
    exists t. split; [exact Ht|]. apply in_flat_map. exists tm. split.
    + apply filter_In. split; [exact Htm|]. now apply String.eqb_eq.
    + apply in_map_iff. exists (Track.spotify_track_id t, names).
      split; [reflexivity|]. apply filter_In. split; [exact Han|].
      apply String.eqb_refl.
Qed.

(** A column that tells the rows of a duplicate-free table apart is a key. *)
Lemma key_of_distinct_rows {Row Col : Type} (column : Row -> Col) (rows : list Row) :
  (forall a b, In a rows -> In b rows -> column a = column b -> a = b) ->
  NoDup rows -> NoDup (map column rows).
Proof.
  intros Hinj N. induction N as [|r rows Hr Hrows IH]; simpl; [constructor|].
  constructor.
  - intros H. apply in_map_iff in H. destruct H as (y & E & Hy).
    assert (y = r) by (apply Hinj; simpl; auto). now subst.
  - apply IH. intros a b Ha Hb. apply Hinj; now right.
Qed.

(** A consolidated row is determined by its track id. *)
Lemma consolidated_row_by_id db r r' :
  tracks_keyed db ->
  In r (tracks_consolidated_select db) -> In r' (tracks_consolidated_select db) ->
  Track.spotify_track_id (Consolidated.track r) =
  Track.spotify_track_id (Consolidated.track r') -> r = r'.
Proof.
  intros Tk Hr Hr' E. apply tracks_consolidated_select_In in Hr, Hr'.
  destruct Hr as (Ht & _ & Han), Hr' as (Ht' & _ & Han').
  apply subquery_an_In in Han, Han'. destruct Han as [En _], Han' as [En' _].
  assert (Consolidated.track r = Consolidated.track r')
    by (apply (NoDup_map_eq _ _ _ _ Tk); auto).
  destruct r, r'. simpl in *. congruence.
Qed.

Lemma TRACKS_CONSOLIDATED_QUERY_runs db :
  tracks_keyed db ->
  TRACKS_CONSOLIDATED_QUERY db =
  Some (set_tracks_consolidated_test (tracks_consolidated_select db) db).
Proof.
  intros Tk. unfold TRACKS_CONSOLIDATED_QUERY.
  replace (unique_keys _) with true; [reflexivity|].
  symmetry. apply unique_keys_NoDup.
  apply (key_of_distinct_rows (fun r => Track.spotify_track_id (Consolidated.track r))).
  - intros x y Hx Hy. now apply (consolidated_row_by_id db).
  - apply NoDup_nodup.
Qed.









(* ===================================================================== *)
(** * The rebuilds are idempotent (C9) *)
(* ===================================================================== *)

Lemma rebuild_result db db1 :
  rebuild db = Some db1 ->
  db1 = set_tracks_consolidated_test
          (tracks_consolidated_select db)
          (set_track_mapping_test (track_mapping_select db) db).
Proof.
  unfold rebuild, TRACK_MAPPING_QUERY, TRACKS_CONSOLIDATED_QUERY.
  destruct (unique_keys (map Mapping.old_track_uri (track_mapping_select db)));
    [|discriminate].
  destruct (unique_keys _); [|discriminate].
  now intros [= <-].
Qed.

Lemma rebuild_same_sources db1 db2 r1 :
  same_sources db1 db2 -> rebuild db1 = Some r1 ->
  exists r2, rebuild db2 = Some r2 /\
    track_mapping_test r2 = track_mapping_test r1 /\
    tracks_consolidated_test r2 = tracks_consolidated_test r1.
Proof.
  intros (Et & Eal & Eta & Ear & Etm) H.
  assert (E1 : track_mapping_select db2 = track_mapping_select db1).
  { unfold track_mapping_select, subquery_x. now rewrite Et, Eal. }
  assert (E2 : tracks_consolidated_select db2 = tracks_consolidated_select db1).
  { unfold tracks_consolidated_select, subquery_an, aggregated_names,
      aggregated_rows, artist_join.
    now rewrite Et, Eta, Ear, Etm. }
  assert (R := rebuild_result _ _ H). subst r1.
  revert H. unfold rebuild, TRACK_MAPPING_QUERY, TRACKS_CONSOLIDATED_QUERY.
  rewrite E1.
  destruct (unique_keys (map Mapping.old_track_uri (track_mapping_select db1)));
    [|discriminate].
  change (tracks_consolidated_select (set_track_mapping_test _ db1))
    with (tracks_consolidated_select db1).
  change (tracks_consolidated_select (set_track_mapping_test _ db2))
    with (tracks_consolidated_select db2).
  rewrite E2.
  destruct (unique_keys _); [|discriminate].
  intros _. eexists. split; [reflexivity|]. split; reflexivity.
Qed.

(** C9.  A second run of the two rebuilds from the state the first run
    left reproduces that state; more generally, from any state with the
    same rows in the tables the queries read, the two rebuilt tables come
    out the same. *)
Theorem rebuild_idempotent db db1 :
  rebuild db = Some db1 ->
  rebuild db1 = Some db1 /\
  (forall db2, same_sources db1 db2 ->
     exists r2, rebuild db2 = Some r2 /\
       track_mapping_test r2 = track_mapping_test db1 /\
       tracks_consolidated_test r2 = tracks_consolidated_test db1).
Proof.
  intros H. assert (R := rebuild_result _ _ H). split.
  - revert H. subst db1.
    unfold rebuild, TRACK_MAPPING_QUERY, TRACKS_CONSOLIDATED_QUERY.
    change (track_mapping_select (set_tracks_consolidated_test _ _))
      with (track_mapping_select db).
    destruct (unique_keys (map Mapping.old_track_uri (track_mapping_select db)));
      [|discriminate].
    change (tracks_consolidated_select (set_track_mapping_test _ _))
      with (tracks_consolidated_select db).
    destruct (unique_keys _); [|discriminate].
    reflexivity.
  - intros db2 S.
    assert (S1 : same_sources db db2).
    { subst db1. exact S. }
    destruct (rebuild_same_sources db db2 db1 S1 H) as (r2 & Hr & E1 & E2).
    exists r2. auto.
Qed.

Lemma rebuild_idempotent_witness :
  exists db1, rebuild consolidation_db = Some db1 /\ rebuild db1 = Some db1 /\
    tracks_consolidated_test db1 = [Consolidated.mk track_A "Band, Guest"].
Proof.
  eexists. split; [vm_compute; reflexivity|]. split.
  - apply (rebuild_idempotent consolidation_db). vm_compute. reflexivity.
  - reflexivity.
Defined.

(* ===================================================================== *)
(** * process_duplicate_artists stops at its stray log line (C10, C5) *)
(* ===================================================================== *)

Lemma album_name_unbound :
  eval_fstring process_duplicate_artists_locals db_utils_globals ["album_name"; "e"]
  = Raised (NameError "album_name").
Proof. vm_compute. reflexivity. Qed.

Lemma process_duplicate_artists_eq c :
  process_duplicate_artists c =
  (Raised (NameError "album_name"),
   mkconn (working c) (committed c) (journal c ++ [Execute "SELECT artists_test"])).
Proof.
  unfold process_duplicate_artists, bind, execute_select, fstring.
  now rewrite album_name_unbound.
Qed.

(** C10.  Every call of [process_duplicate_artists] ends in [NameError]
    for [album_name], having sent the connection one SELECT and nothing
    else: no UPDATE, no commit, and both the open transaction and the durable
    state are as they were. *)
Theorem process_duplicate_artists_raises c :
  fst (process_duplicate_artists c) = Raised (NameError "album_name") /\
  working (snd (process_duplicate_artists c)) = working c /\
  committed (snd (process_duplicate_artists c)) = committed c /\
  journal (snd (process_duplicate_artists c)) =
    journal c ++ [Execute "SELECT artists_test"] /\
  artists_test (working (snd (process_duplicate_artists c))) = artists_test (working c) /\
  music_listening_history_test (working (snd (process_duplicate_artists c)))
    = music_listening_history_test (working c).
Proof. rewrite process_duplicate_artists_eq. simpl. auto 10. Qed.

(** C5 at the two artists named Bob of the spec: the call raises and both
    keep the bare name, while the statements after the stray log line, had
    they been reached, would have renamed the second to "Bob (2)" in both
    tables. *)
Theorem process_duplicate_artists_bobs :
  with_connection process_duplicate_artists bobs_db
    = (Raised (NameError "album_name"), bobs_db, [Execute "SELECT artists_test"]) /\
  map Artist.artist_name (artists_test bobs_db) = ["Bob"; "Bob"] /\
  (let '(r, db', _) := with_connection (rename_duplicates ["Bob"]) bobs_db in
   r = Returned tt /\
   artists_test db' = [Artist.mk "2" "Bob (2)" 50; Artist.mk "1" "Bob" 1000] /\
   map (fun h => (Listening.spotify_artist_id h, Listening.artist_name h))
       (music_listening_history_test db')
     = [(Some "1", "Bob"); (Some "2", "Bob (2)")]).
Proof. repeat split; vm_compute; reflexivity. Qed.

(* ===================================================================== *)
(** * Transactions and commits (C8) *)
(* ===================================================================== *)

Lemma commits_app j1 j2 : commits (j1 ++ j2) = (commits j1 + commits j2)%nat.
Proof. unfold commits. now rewrite filter_app, length_app. Qed.

Lemma update_music_listening_history_eq c :
  update_music_listening_history c =
  (Returned tt,
   mkconn (mlh_update_stmt (working c)) (mlh_update_stmt (working c))
          (journal c ++ [Execute "UPDATE music_listening_history_test"; Commit])).
Proof.
  unfold update_music_listening_history, bind, execute, commit, logger_call, ret.
  simpl. now rewrite <- app_assoc.
Qed.

(** One turn of the renaming loop. *)
Lemma apply_new_names_cons row rest c :
  apply_new_names (row :: rest) c =
  apply_new_names rest
    (mkconn (artists_dupe_artist_stmt (Artist.artist_name row)
               (Artist.spotify_artist_id row)
               (mlh_dupe_artist_stmt (Artist.artist_name row)
                  (Artist.spotify_artist_id row) (working c)))
            (artists_dupe_artist_stmt (Artist.artist_name row)
               (Artist.spotify_artist_id row)
               (mlh_dupe_artist_stmt (Artist.artist_name row)
                  (Artist.spotify_artist_id row) (working c)))
            (journal c ++ row_events)).
Proof.
  cbn [apply_new_names]. unfold bind, execute, commit, logger_call, ret, row_events.
  cbn [working committed journal]. rewrite <- !app_assoc. reflexivity.
Qed.

(** The renaming loop returns, and sends two updates and a commit per row. *)
Lemma apply_new_names_journal rows c :
  fst (apply_new_names rows c) = Returned tt /\
  journal (snd (apply_new_names rows c)) =
    journal c ++ flat_map (fun _ => row_events) rows.
Proof.
  revert c. induction rows as [|row rows IH]; intros c.
  - simpl. split; [reflexivity|now rewrite app_nil_r].
  - rewrite apply_new_names_cons.
    match goal with |- context [apply_new_names rows ?c0] =>
      destruct (IH c0) as [R J] end.
    split; [exact R|]. rewrite J. cbn [journal flat_map].
    now rewrite <- app_assoc.
Qed.

(** After any non-empty run of the loop everything done so far is durable. *)
Lemma apply_new_names_durable rows c :
  rows <> [] ->
  committed (snd (apply_new_names rows c)) = working (snd (apply_new_names rows c)).
Proof.
  revert c. induction rows as [|row rows IH]; intros c H; [congruence|].
  rewrite apply_new_names_cons.
  destruct rows as [|row' rows']; [reflexivity|].
  apply IH. discriminate.
Qed.

(** The loop over a longer frame starts with the loop over its prefix. *)
Lemma apply_new_names_app rows1 rows2 c :
  apply_new_names (rows1 ++ rows2) c =
  apply_new_names rows2 (snd (apply_new_names rows1 c)).
Proof.
  revert c. induction rows1 as [|row rows IH]; intros c; [reflexivity|].
  rewrite <- app_comm_cons, !apply_new_names_cons. apply IH.
Qed.

Lemma commits_rows {A : Type} (rows : list A) :
  commits (flat_map (fun _ => row_events) rows) = length rows.
Proof.
  induction rows as [|r rows IH]; [reflexivity|].
  cbn [flat_map]. rewrite commits_app, IH. reflexivity.
Qed.

Section MainFacts.
Variable GENRES_UPDATE_QUERY : database -> option database.

(** The three raw statements either all succeed and are committed once, at
    the end, or one of them raises and nothing is committed. *)
Lemma rebuild_and_commit_cases c :
  (fst (rebuild_and_commit GENRES_UPDATE_QUERY c) = Returned tt /\
   journal (snd (rebuild_and_commit GENRES_UPDATE_QUERY c)) =
     journal c ++ [Execute "TRACK_MAPPING_QUERY"; Execute "TRACKS_CONSOLIDATED_QUERY";
                   Execute "GENRES_UPDATE_QUERY"; Commit] /\
   committed (snd (rebuild_and_commit GENRES_UPDATE_QUERY c)) =
     working (snd (rebuild_and_commit GENRES_UPDATE_QUERY c)) /\
   exists db1 db2,
     TRACK_MAPPING_QUERY (working c) = Some db1 /\
     TRACKS_CONSOLIDATED_QUERY db1 = Some db2 /\
     GENRES_UPDATE_QUERY db2 =
       Some (committed (snd (rebuild_and_commit GENRES_UPDATE_QUERY c))))
  \/
  ((exists e, fst (rebuild_and_commit GENRES_UPDATE_QUERY c) = Raised e) /\
   commits (journal (snd (rebuild_and_commit GENRES_UPDATE_QUERY c))) =
     commits (journal c) /\
   committed (snd (rebuild_and_commit GENRES_UPDATE_QUERY c)) = committed c).
Proof.
  unfold rebuild_and_commit, bind, execute, commit, logger_call, ret. simpl.
  destruct (TRACK_MAPPING_QUERY (working c)) as [db1|] eqn:E1; simpl.
  - destruct (TRACKS_CONSOLIDATED_QUERY db1) as [db2|] eqn:E2; simpl.
    + destruct (GENRES_UPDATE_QUERY db2) as [db3|] eqn:E3; simpl.
      * left. split; [reflexivity|]. split; [now rewrite <- !app_assoc|].
        split; [reflexivity|]. exists db1, db2. auto.
      * right. split; [eexists; reflexivity|].
        split; [|reflexivity]. rewrite !commits_app. unfold commits. simpl. lia.
    + right. split; [eexists; reflexivity|].
      split; [|reflexivity]. rewrite !commits_app. unfold commits. simpl. lia.
  - right. split; [eexists; reflexivity|].
    split; [|reflexivity]. rewrite !commits_app. unfold commits. simpl. lia.
Qed.

(** As the sources stand, [main] commits the back-fill and then stops in
    [process_duplicate_artists]: the rebuild statements are never sent. *)
Lemma main_stops_before_rebuild db :
  main GENRES_UPDATE_QUERY db =
  (Raised (NameError "album_name"), mlh_update_stmt db,
   [Execute "UPDATE music_listening_history_test"; Commit;
    Execute "SELECT artists_test"]).
Proof.
  unfold main, with_connection, bind.
  rewrite update_music_listening_history_eq, process_duplicate_artists_eq.
  reflexivity.
Qed.
End MainFacts.

(** The claim C8 as the spec words it fails for the renaming: as the code
    stands the call commits nothing, and its loop commits after every row,
    so that after two of three rows a half-done renaming is durable. *)
Lemma rename_commits_row_by_row :
  commits (journal (snd (process_duplicate_artists (fresh three_bobs_db)))) = 0%nat /\
  commits (journal (snd (rename_duplicates ["Bob"] (fresh three_bobs_db)))) = 3%nat /\
  artists_test
    (committed
       (snd (apply_new_names
               (firstn 2 (renaming_plan (followers_query ["Bob"] three_bobs_db)))
               (fresh three_bobs_db))))
  = [bob_3; bob_1; Artist.mk "2" "Bob (2)" 50].
Proof. repeat split; vm_compute; reflexivity. Qed.

(** C8, amended.  The back-fill sends one UPDATE and then commits once; the
    three raw statements of the rebuild are followed by one commit, and if
    one of them raises nothing of the rebuild is committed; the renaming loop
    commits once per row, after the two UPDATEs of that row, so that whatever
    rows it has gone through are durable. *)
Theorem commit_points (GENRES_UPDATE_QUERY : database -> option database) :
  (forall c,
     update_music_listening_history c =
     (Returned tt,
      mkconn (mlh_update_stmt (working c)) (mlh_update_stmt (working c))
             (journal c ++ [Execute "UPDATE music_listening_history_test"; Commit])))
  /\
  (forall c,
     (fst (rebuild_and_commit GENRES_UPDATE_QUERY c) = Returned tt /\
      journal (snd (rebuild_and_commit GENRES_UPDATE_QUERY c)) =
        journal c ++ [Execute "TRACK_MAPPING_QUERY"; Execute "TRACKS_CONSOLIDATED_QUERY";
                      Execute "GENRES_UPDATE_QUERY"; Commit] /\
      committed (snd (rebuild_and_commit GENRES_UPDATE_QUERY c)) =
        working (snd (rebuild_and_commit GENRES_UPDATE_QUERY c)) /\
      exists db1 db2,
        TRACK_MAPPING_QUERY (working c) = Some db1 /\
        TRACKS_CONSOLIDATED_QUERY db1 = Some db2 /\
        GENRES_UPDATE_QUERY db2 =
          Some (committed (snd (rebuild_and_commit GENRES_UPDATE_QUERY c))))
     \/
     ((exists e, fst (rebuild_and_commit GENRES_UPDATE_QUERY c) = Raised e) /\
      commits (journal (snd (rebuild_and_commit GENRES_UPDATE_QUERY c))) =
        commits (journal c) /\
      committed (snd (rebuild_and_commit GENRES_UPDATE_QUERY c)) = committed c))
  /\
  (forall rows c,
     fst (apply_new_names rows c) = Returned tt /\
     journal (snd (apply_new_names rows c)) =
       journal c ++ flat_map (fun _ => row_events) rows /\
     commits (journal (snd (apply_new_names rows c))) =
       (commits (journal c) + length rows)%nat /\
     (rows <> [] ->
      committed (snd (apply_new_names rows c)) = working (snd (apply_new_names rows c)))).
Proof.
  split; [exact update_music_listening_history_eq|].
  split; [exact (rebuild_and_commit_cases GENRES_UPDATE_QUERY)|].
  intros rows c. destruct (apply_new_names_journal rows c) as [R J].
  split; [exact R|]. split; [exact J|]. split.
  - now rewrite J, commits_app, commits_rows.
  - apply apply_new_names_durable.
Qed.

Lemma commit_points_witness :
  journal (snd (update_music_listening_history (fresh bobs_db))) =
    [Execute "UPDATE music_listening_history_test"; Commit] /\
  committed (snd (apply_new_names [bob_1] (fresh bobs_db))) =
    working (snd (apply_new_names [bob_1] (fresh bobs_db))).
Proof.
  destruct (commit_points no_genres_update) as (Backfill & _ & Loop). split.
  - now rewrite Backfill.
  - apply (Loop [bob_1] (fresh bobs_db)). discriminate.
Defined.

(* ===================================================================== *)
(** * The retry decorator and the batch run (C7) *)
(* ===================================================================== *)

Lemma max_retries_3 : default 3 (RETRY_CONFIG !! "max_retries") = 3.
Proof. vm_compute. reflexivity. Qed.

Lemma delay_10 : default 10 (RETRY_CONFIG !! "delay") = 10.
Proof. vm_compute. reflexivity. Qed.

(** The wrapper under the configuration of the module, call by call. *)
Lemma retry_operation_unfold {A : Type} name (func : nat -> outcome A * list api_event) :
  retry_operation name func =
  let warning := [Log "warning" (String.append "Retrying " name); Sleep 10] in
  match func 0%nat with
  | (Returned v, t0) => Some (Returned (Some v), t0)
  | (Raised _, t0) =>
      match func 1%nat with
      | (Returned v, t1) => Some (Returned (Some v), t0 ++ warning ++ t1)
      | (Raised _, t1) =>
          match func 2%nat with
          | (Returned v, t2) =>
              Some (Returned (Some v), t0 ++ warning ++ t1 ++ warning ++ t2)
          | (Raised _, t2) =>
              Some (Raised (MaxRetriesExceededException
                              (String.append "Max retries reached for " name)),
                    t0 ++ warning ++ t1 ++ warning ++ t2 ++
                    [Log "error" (String.append "Max retries reached for " name)])
          end
      end
  end.
Proof.
  unfold retry_operation. rewrite max_retries_3, delay_10.
  change (Z.to_nat 3) with 3%nat. cbn [retry_loop].
  change (0 <? 3) with true. change (0 + 1 <? 3) with true.
  change (0 + 1 + 1 <? 3) with true.
  change (0 + 1 >=? 3) with false. change (0 + 1 + 1 >=? 3) with false.
  change (0 + 1 + 1 + 1 >=? 3) with true.
  change (Z.to_nat 0) with 0%nat. change (Z.to_nat (0 + 1)) with 1%nat.
  change (Z.to_nat (0 + 1 + 1)) with 2%nat. cbv zeta.
  destruct (func 0%nat) as [[v0|e0] t0]; [reflexivity|].
  destruct (func 1%nat) as [[v1|e1] t1]; [reflexivity|].
  destruct (func 2%nat) as [[v2|e2] t2]; reflexivity.
Qed.

Lemma run_wrapped_eq sp w :
  exists message method,
    run_wrapped sp w =
    retry_operation (wrapped_name w) (api_body message method (client_call sp w)).
Proof. destruct w; simpl; eauto. Qed.

Lemma api_body_Returned message method call n v :
  call n = Returned v ->
  api_body message method call n =
  (Returned v, [Log "info" message; Call method; Sleep sleep_seconds]).
Proof. unfold api_body. now intros ->. Qed.

Lemma api_body_Raised message method call n :
  (exists e, call n = Raised e) ->
  exists e, api_body message method call n =
            (Raised e, [Log "info" message; Call method]).
Proof. unfold api_body. intros [e ->]. now exists e. Qed.

(** A wrapped call returns the first answer it gets within three calls. *)
Lemma wrapped_returns sp w k v :
  (k < 3)%nat ->
  (forall j, (j < k)%nat -> exists e, client_call sp w j = Raised e) ->
  client_call sp w k = Returned v ->
  exists tr, run_wrapped sp w = Some (Returned (Some v), tr) /\
             calls tr = S k /\ sleeps tr = repeat 10 k ++ [sleep_seconds].
Proof.
  intros Hk Hfail Hok. destruct (run_wrapped_eq sp w) as (message & method & ->).
  rewrite retry_operation_unfold. cbv zeta.
  destruct k as [|[|[|k]]]; [| | |lia].
  - rewrite (api_body_Returned _ _ _ _ _ Hok). eexists. split; [reflexivity|].
    split; reflexivity.
  - destruct (api_body_Raised message method _ 0%nat (Hfail 0%nat ltac:(lia))) as [e0 ->].
    rewrite (api_body_Returned _ _ _ _ _ Hok). eexists. split; [reflexivity|].
    split; reflexivity.
  - destruct (api_body_Raised message method _ 0%nat (Hfail 0%nat ltac:(lia))) as [e0 ->].
    destruct (api_body_Raised message method _ 1%nat (Hfail 1%nat ltac:(lia))) as [e1 ->].
    rewrite (api_body_Returned _ _ _ _ _ Hok). eexists. split; [reflexivity|].
    split; reflexivity.
Qed.

(** A wrapped call whose three calls raise gives up with the dedicated
    exception, having slept the delay twice. *)
Lemma wrapped_gives_up sp w :
  (forall j, (j < 3)%nat -> exists e, client_call sp w j = Raised e) ->
  exists tr,
    run_wrapped sp w =
    Some (Raised (MaxRetriesExceededException
                    (String.append "Max retries reached for " (wrapped_name w))), tr) /\
    calls tr = 3%nat /\ sleeps tr = [10; 10].
Proof.
  intros Hfail. destruct (run_wrapped_eq sp w) as (message & method & ->).
  rewrite retry_operation_unfold. cbv zeta.
  destruct (api_body_Raised message method _ 0%nat (Hfail 0%nat ltac:(lia))) as [e0 ->].
  destruct (api_body_Raised message method _ 1%nat (Hfail 1%nat ltac:(lia))) as [e1 ->].
  destruct (api_body_Raised message method _ 2%nat (Hfail 2%nat ltac:(lia))) as [e2 ->].
  eexists. split; [reflexivity|]. split; reflexivity.
Qed.

Lemma start_index_unbound :
  eval_fstring handle_new_tracks_locals batch_processing_globals ["start_index"; "e"]
  = Raised (NameError "start_index").
Proof. vm_compute. reflexivity. Qed.

(** Whatever the [try] block of [handle_new_tracks] raises, its handler
    fails on its own message before it can raise the exception again. *)
Lemma handle_new_tracks_raises e :
  handle_new_tracks (Raised e) = Raised (NameError "start_index").
Proof. unfold handle_new_tracks. now rewrite start_index_unbound. Qed.

(** A batch in which one of the two batch calls raised ends in that
    exception. *)
Lemma process_batch_call_raised b e :
  (batch_has_new_tracks b || batch_has_new_track_artists b = true /\
   batch_tracks b = Raised e) \/
  (batch_has_new_tracks b = true /\
   (exists v, batch_tracks b = Returned v) /\
   (batch_has_new_track_artists b = true ->
    exists v, new_track_artists_body b = Returned v) /\
   af_batch_tracks b = Raised e) ->
  process_batch b = Raised e.
Proof.
  unfold process_batch, handle_new_track_artists.
  intros [[-> ->]|(-> & [v ->] & Hta & ->)]; [reflexivity|]. cbn [orb].
  destruct (batch_has_new_track_artists b); [|reflexivity].
  now destruct (Hta eq_refl) as [u ->].
Qed.

(** A batch that comes as far as [handle_new_tracks] and meets an exception
    in its [try] block ends in the [NameError] of the handler. *)
Lemma process_batch_body_raised b e :
  batch_has_new_tracks b = true ->
  (exists v, batch_tracks b = Returned v) ->
  (batch_has_new_track_artists b = true ->
   exists v, new_track_artists_body b = Returned v) ->
  (exists v, af_batch_tracks b = Returned v) ->
  new_tracks_body b = Raised e ->
  process_batch b = Raised (NameError "start_index").
Proof.
  unfold process_batch, handle_new_track_artists.
  intros -> [v ->] Hta [v' ->] ->. cbn [orb]. rewrite handle_new_tracks_raises.
  destruct (batch_has_new_track_artists b); [|reflexivity].
  now destruct (Hta eq_refl) as [u ->].
Qed.

Section BatchRunFacts.
Variable run : Z -> outcome unit.

(** The loop ends for every table length. *)
Lemma batch_loop_total fuel start_index len :
  (Z.to_nat (len - start_index) <= fuel)%nat ->
  exists r, batch_loop run fuel start_index len = Some r.
Proof.
  revert start_index. induction fuel as [|fuel IH]; intros start_index Hf; simpl.
  - destruct (start_index <? len) eqn:E; [|eauto].
    apply Z.ltb_lt in E. lia.
  - destruct (start_index <? len) eqn:E; [|eauto].
    apply Z.ltb_lt in E.
    destruct (run start_index); [|eauto].
    destruct (IH (start_index + batch_size)) as [[r done] ->]; [unfold batch_size; lia|].
    eauto.
Qed.

(** The loop stops at the first batch that raises: the batches before it
    and that batch are the only ones processed. *)
Lemma batch_loop_stops k : forall fuel start_index len e,
  (Z.to_nat (len - start_index) <= fuel)%nat ->
  start_index + batch_size * Z.of_nat k < len ->
  (forall j, (j < k)%nat ->
     exists v, run (start_index + batch_size * Z.of_nat j) = Returned v) ->
  run (start_index + batch_size * Z.of_nat k) = Raised e ->
  batch_loop run fuel start_index len =
  Some (Raised e, map (fun j => start_index + batch_size * Z.of_nat j) (seq 0 (S k))).
Proof.
  induction k as [|k IH]; intros fuel start_index len e Hf Hlt Hok Hbad.
  - rewrite Z.mul_0_r, Z.add_0_r in *.
    destruct fuel as [|fuel]; [lia|]. simpl.
    apply Z.ltb_lt in Hlt. rewrite Hlt, Hbad. simpl.
    now rewrite Z.mul_0_r, Z.add_0_r.
  - assert (Hs : start_index < len) by (unfold batch_size in *; lia).
    destruct fuel as [|fuel]; [lia|]. cbn [batch_loop].
    apply Z.ltb_lt in Hs. rewrite Hs. apply Z.ltb_lt in Hs.
    destruct (Hok 0%nat ltac:(lia)) as [v Hv].
    rewrite Z.mul_0_r, Z.add_0_r in Hv. rewrite Hv.
    rewrite (IH fuel (start_index + batch_size) len e).
    + f_equal. f_equal.
      change (seq 0 (S (S k))) with (0%nat :: seq 1 (S k)).
      rewrite <- (seq_shift (S k) 0), map_cons, map_map.
      f_equal; [lia|]. apply map_ext. intros j. lia.
    + unfold batch_size. lia.
    + lia.
    + intros j Hj. destruct (Hok (S j) ltac:(lia)) as [v' Hv'].
      exists v'. rewrite <- Hv'. f_equal. lia.
    + rewrite <- Hbad. f_equal. lia.
Qed.
End BatchRunFacts.

(** C7.  The decorator is as the claim has it for each of the four wrapped
    operations: the first answer within three calls is returned, with a
    sleep of the delay of 10 s before each new call, and three calls that
    raise end in [MaxRetriesExceededException] after two such sleeps.  What
    becomes of the exception depends on the place of the call.  Given up by
    [fetch_batch_tracks] or [fetch_audio_features], it leaves
    [process_batch], the loop hands over no later batch and [main] raises it
    again.  Given up by [fetch_album] or [fetch_artist], which are called
    inside the [try] block of [handle_new_tracks], it is replaced there by
    the [NameError] of the handler's message; the loop hands over no later
    batch, [main] only logs that error and returns normally. *)
Theorem retries_exceeded_and_the_run :
  (forall sp w,
     (forall k v, (k < 3)%nat ->
        (forall j, (j < k)%nat -> exists e, client_call sp w j = Raised e) ->
        client_call sp w k = Returned v ->
        exists tr, run_wrapped sp w = Some (Returned (Some v), tr) /\
                   calls tr = S k /\ sleeps tr = repeat 10 k ++ [sleep_seconds]) /\
     ((forall j, (j < 3)%nat -> exists e, client_call sp w j = Raised e) ->
      exists tr,
        run_wrapped sp w =
        Some (Raised (MaxRetriesExceededException
                        (String.append "Max retries reached for " (wrapped_name w))), tr) /\
        calls tr = 3%nat /\ sleeps tr = [10; 10]))
  /\
  (forall (batch_at : Z -> batch) start_index len k m,
     start_index + batch_size * Z.of_nat k < len ->
     (forall j, (j < k)%nat ->
        exists v, process_batch (batch_at (start_index + batch_size * Z.of_nat j))
                  = Returned v) ->
     ((batch_has_new_tracks (batch_at (start_index + batch_size * Z.of_nat k))
       || batch_has_new_track_artists (batch_at (start_index + batch_size * Z.of_nat k))
       = true /\
       batch_tracks (batch_at (start_index + batch_size * Z.of_nat k))
       = Raised (MaxRetriesExceededException m)) \/
      (batch_has_new_tracks (batch_at (start_index + batch_size * Z.of_nat k)) = true /\
       (exists v, batch_tracks (batch_at (start_index + batch_size * Z.of_nat k))
                  = Returned v) /\
       (batch_has_new_track_artists (batch_at (start_index + batch_size * Z.of_nat k))
        = true ->
        exists v, new_track_artists_body (batch_at (start_index + batch_size * Z.of_nat k))
                  = Returned v) /\
       af_batch_tracks (batch_at (start_index + batch_size * Z.of_nat k))
       = Raised (MaxRetriesExceededException m)) ->
      process_batch (batch_at (start_index + batch_size * Z.of_nat k))
      = Raised (MaxRetriesExceededException m) /\
      batch_main (fun i => process_batch (batch_at i)) start_index len =
      Some (Raised (MaxRetriesExceededException m),
            map (fun j => start_index + batch_size * Z.of_nat j) (seq 0 (S k)))) /\
     (batch_has_new_tracks (batch_at (start_index + batch_size * Z.of_nat k)) = true ->
      (exists v, batch_tracks (batch_at (start_index + batch_size * Z.of_nat k))
                 = Returned v) ->
      (batch_has_new_track_artists (batch_at (start_index + batch_size * Z.of_nat k))
       = true ->
       exists v, new_track_artists_body (batch_at (start_index + batch_size * Z.of_nat k))
                 = Returned v) ->
      (exists v, af_batch_tracks (batch_at (start_index + batch_size * Z.of_nat k))
                 = Returned v) ->
      new_tracks_body (batch_at (start_index + batch_size * Z.of_nat k))
      = Raised (MaxRetriesExceededException m) ->
      process_batch (batch_at (start_index + batch_size * Z.of_nat k))
      = Raised (NameError "start_index") /\
      batch_main (fun i => process_batch (batch_at i)) start_index len =
      Some (Returned tt,
            map (fun j => start_index + batch_size * Z.of_nat j) (seq 0 (S k))))).
Proof.
  split.
  - intros sp w. split.
    + intros k v. apply wrapped_returns.
    + apply wrapped_gives_up.
  - intros batch_at start_index len k m Hlt Hok. split.
    + intros Hcall. apply process_batch_call_raised in Hcall.
      split; [exact Hcall|]. unfold batch_main.
      now rewrite (batch_loop_stops (fun i => process_batch (batch_at i)) k
                     (Z.to_nat (len - start_index)) start_index len
                     (MaxRetriesExceededException m) (le_n _) Hlt Hok Hcall).
    + intros Hnew Hbt Hta Haf Hbody.
      assert (P := process_batch_body_raised _ _ Hnew Hbt Hta Haf Hbody).
      split; [exact P|]. unfold batch_main.
      now rewrite (batch_loop_stops (fun i => process_batch (batch_at i)) k
                     (Z.to_nat (len - start_index)) start_index len
                     (NameError "start_index") (le_n _) Hlt Hok P).
Qed.

Lemma retries_exceeded_and_the_run_witness :
  (exists tr, fetch_album flaky_sp "spotify:album:1" = Some (Returned (Some "album"), tr) /\
              sleeps tr = [10; 10; 5]) /\
  (exists tr, fetch_artist flaky_sp "spotify:artist:1" =
              Some (Raised (MaxRetriesExceededException
                              "Max retries reached for fetch_artist"), tr) /\
              sleeps tr = [10; 10]) /\
  batch_main (fun i => process_batch
                         (mkbatch true false
                            (if i =? 100
                             then Raised (MaxRetriesExceededException "gave up")
                             else Returned None)
                            (Returned tt) (Returned None) (Returned tt)))
             0 420
  = Some (Raised (MaxRetriesExceededException "gave up"), [0; 50; 100]) /\
  process_batch album_gave_up = Raised (NameError "start_index") /\
  batch_main (fun i => process_batch (if i =? 100 then album_gave_up else nothing_new))
             0 420
  = Some (Returned tt, [0; 50; 100]).
Proof.
  destruct retries_exceeded_and_the_run as (Wrapper & Run).
  split; [|split; [|split]].
  - destruct (Wrapper flaky_sp (Fetch_album "spotify:album:1")) as [Ok _].
    destruct (Ok 2%nat "album") as (tr & E & _ & S).
    + lia.
    + intros j Hj. exists (SpotifyException "429").
      destruct j as [|[|j]]; [reflexivity|reflexivity|lia].
    + reflexivity.
    + exists tr. split; [exact E|exact S].
  - destruct (Wrapper flaky_sp (Fetch_artist "spotify:artist:1")) as [_ Bad].
    destruct Bad as (tr & E & _ & S).
    + intros j _. now exists (SpotifyException "429").
    + exists tr. split; [exact E|exact S].
  - destruct (Run (fun i => mkbatch true false
                              (if i =? 100
                               then Raised (MaxRetriesExceededException "gave up")
                               else Returned None)
                              (Returned tt) (Returned None) (Returned tt))
                  0 420 2%nat "gave up") as [Call _].
    + reflexivity.
    + intros j Hj. exists tt. destruct j as [|[|j]]; [reflexivity|reflexivity|lia].
    + apply Call. left. split; reflexivity.
  - destruct (Run (fun i => if i =? 100 then album_gave_up else nothing_new)
                  0 420 2%nat "Max retries reached for fetch_album") as [_ Inside].
    + reflexivity.
    + intros j Hj. exists tt. destruct j as [|[|j]]; [reflexivity|reflexivity|lia].
    + apply Inside; try reflexivity; try (eexists; reflexivity).
Defined.

(* ===================================================================== *)
(** * Further facts about the mapping rebuild *)
(* ===================================================================== *)

(** The self join of the innermost subquery, with its condition on the
    durations, neither drops nor adds a track: the window sees every row of
    [tracks], each once. *)
Theorem self_join_keeps_every_track ts :
  (forall t, In t (subquery_t ts) <-> In t ts) /\ NoDup (subquery_t ts).
Proof.
  split; [intros t; apply subquery_t_In|apply NoDup_nodup].
Qed.

Lemma bucket_width d1 d2 :
  0 <= d1 -> 0 <= d2 -> duration_ms_group d1 = duration_ms_group d2 ->
  Z.abs (d1 - d2) < 3000.
Proof.
  unfold duration_ms_group. intros H1 H2.
  rewrite !Z.rem_mod_nonneg by lia.
  assert (B1 := Z.mod_pos_bound d1 3000 ltac:(lia)).
  assert (B2 := Z.mod_pos_bound d2 3000 ltac:(lia)).
  assert (D1 := Z.div_mod d1 3000 ltac:(lia)).
  assert (D2 := Z.div_mod d2 3000 ltac:(lia)).
  revert B1 B2 D1 D2.
  generalize (d1 mod 3000) (d2 mod 3000) (d1 / 3000) (d2 / 3000).
  intros r1 r2 q1 q2 B1 B2 D1 D2 E. lia.
Qed.

(** With durations that are not negative, every mapping row pairs two
    tracks of one primary artist and one name whose durations differ by less
    than 3000 ms: the rebuild never maps a track onto one that the join
    condition of the query itself would reject. *)
Theorem mapping_rows_are_compatible db m :
  Forall (fun t => 0 <= Track.duration_ms t) (tracks db) ->
  In m (track_mapping_select db) ->
  exists y c, In y (tracks db) /\ In c (tracks db) /\
    Mapping.old_track_uri m = Track.spotify_track_uri y /\
    Mapping.new_track_uri m = Track.spotify_track_uri c /\
    Track.spotify_artist_id y = Track.spotify_artist_id c /\
    Track.track_name y = Track.track_name c /\
    Z.abs (Track.duration_ms y - Track.duration_ms c) < 3000 /\
    self_join_on y c = true.
Proof.
  intros Hpos Hm. apply track_mapping_select_In in Hm.
  destruct Hm as (c & y & Hc & Hy & Hk & ->).
  assert (Hct := canonical_row_track db c Hc).
  exists y, (fst c). unfold row_key, partition_key in Hk.
  injection Hk as Ea En Eg.
  rewrite Forall_forall in Hpos.
  assert (W := bucket_width _ _ (Hpos y Hy) (Hpos _ Hct) Eg).
  repeat split; auto.
  unfold self_join_on. rewrite En, Ea, !String.eqb_refl. simpl.
  apply Z.leb_le. lia.
Qed.

Lemma mapping_rows_are_compatible_witness :
  exists y c, In y (tracks two_release_db) /\ In c (tracks two_release_db) /\
    "spotify:track:B" = Track.spotify_track_uri y /\
    "spotify:track:A" = Track.spotify_track_uri c /\
    Z.abs (Track.duration_ms y - Track.duration_ms c) < 3000.
Proof.
  destruct (mapping_rows_are_compatible two_release_db
              (Mapping.mk "spotify:track:B" "spotify:track:A"))
    as (y & c & Hy & Hc & Eo & En & _ & _ & W & _).
  - repeat constructor; simpl; lia.
  - vm_compute. now left.
  - exists y, c. auto.
Defined.

(** Every key of the mapping is the URI of a row of [tracks] and every
    value is the URI of a row of [tracks] that joins a row of [albums]; with
    no album rows the mapping is empty. *)
Theorem mapping_rows_come_from_tracks db :
  (forall m, In m (track_mapping_select db) ->
     (exists y, In y (tracks db) /\
                Mapping.old_track_uri m = Track.spotify_track_uri y) /\
     (exists c, In c (tracks db) /\ has_album db c /\
                Mapping.new_track_uri m = Track.spotify_track_uri c)) /\
  (albums db = [] -> track_mapping_select db = []).
Proof.
  split.
  - intros m Hm. apply track_mapping_select_In in Hm.
    destruct Hm as (c & y & Hc & Hy & _ & ->). split.
    + now exists y.
    + exists (fst c). auto using canonical_row_track, canonical_row_has_album.
  - intros E. destruct (track_mapping_select db) as [|m l] eqn:S; [reflexivity|].
    assert (Hm : In m (track_mapping_select db)) by (rewrite S; now left).
    apply track_mapping_select_In in Hm.
    destruct Hm as (c & _ & Hc & _). apply canonical_row_has_album in Hc.
    destruct Hc as (a & Ha & _). rewrite E in Ha. destruct Ha.
Qed.

Lemma mapping_rows_come_from_tracks_witness :
  track_mapping_select (tables [track_A; track_B] []) = [].
Proof.
  apply (proj2 (mapping_rows_come_from_tracks (tables [track_A; track_B] []))).
  reflexivity.
Defined.

(** Two rows that the window order puts each before the other carry the
    same track id. *)
Lemma window_leb_antisym r1 r2 :
  window_leb r1 r2 = true -> window_leb r2 r1 = true ->
  Track.spotify_track_id (fst r1) = Track.spotify_track_id (fst r2).
Proof.
  rewrite !window_leb_le. unfold key_le, window_key. intros H1 H2.
  destruct H1 as [H1|[Ea [H1|[Eb [H1|[Ec H1]]]]]];
  destruct H2 as [H2|[Ea' [H2|[Eb' [H2|[Ec' H2]]]]]]; try lia.
  rewrite String.compare_antisym in H2.
  destruct (String.compare (Track.spotify_track_id (fst r1))
                           (Track.spotify_track_id (fst r2))) eqn:E;
    simpl in *; try congruence.
  now apply String.compare_eq_iff.
Qed.

Lemma joined_rows_perm db db' r :
  Permutation (tracks db) (tracks db') -> Permutation (albums db) (albums db') ->
  In r (joined_rows db) -> In r (joined_rows db').
Proof.
  intros Pt Pa. destruct r as [t a]. rewrite !joined_rows_In.
  intros (Ht & Ha & E). repeat split; auto.
  - now apply (Permutation_in _ Pt).
  - now apply (Permutation_in _ Pa).
Qed.

Lemma canonical_rows_perm db db' c :
  tracks_keyed db -> albums_keyed db ->
  Permutation (tracks db) (tracks db') -> Permutation (albums db) (albums db') ->
  In c (canonical_rows db) -> In c (canonical_rows db').
Proof.
  intros Tk Ak Pt Pa Hc.
  assert (Hj := canonical_rows_joined db c Hc).
  destruct (canonical_rows_exists db' c (joined_rows_perm db db' c Pt Pa Hj))
    as (c' & Hc' & Hk).
  assert (Hj' : In c' (joined_rows db)).
  { apply (joined_rows_perm db' db); [now symmetry|now symmetry|].
    now apply canonical_rows_joined. }
  assert (L1 : window_leb c c' = true) by (apply (canonical_rows_least db); auto).
  assert (L2 : window_leb c' c = true).
  { apply (canonical_rows_least db'); auto.
    now apply (joined_rows_perm db db'). }
  destruct (decide (c = c')) as [->|Hne]; [exact Hc'|].
  exfalso. apply (joined_rows_ids db c c' Tk Ak Hj Hj' Hne).
  now apply window_leb_antisym.
Qed.

(** The mapping does not depend on the order in which [tracks] and
    [albums] hold their rows: with the keys of the two tables, listing the
    same rows in another order selects the same mapping rows. *)
Theorem mapping_ignores_row_order db db' :
  tracks_keyed db -> albums_keyed db ->
  Permutation (tracks db) (tracks db') -> Permutation (albums db) (albums db') ->
  forall m, In m (track_mapping_select db) <-> In m (track_mapping_select db').
Proof.
  intros Tk Ak Pt Pa.
  assert (Tk' : tracks_keyed db').
  { unfold tracks_keyed in *. eapply Permutation_NoDup; [|exact Tk].
    now apply Permutation_map. }
  assert (Ak' : albums_keyed db').
  { unfold albums_keyed in *. eapply Permutation_NoDup; [|exact Ak].
    now apply Permutation_map. }
  intros m. rewrite !track_mapping_select_In. split.
  - intros (c & y & Hc & Hy & Hk & ->). exists c, y. repeat split; auto.
    + now apply (canonical_rows_perm db db').
    + now apply (Permutation_in _ Pt).
  - intros (c & y & Hc & Hy & Hk & ->). exists c, y. repeat split; auto.
    + apply (canonical_rows_perm db' db); auto; now symmetry.
    + apply (Permutation_in _ (Permutation_sym Pt)). exact Hy.
Qed.

Lemma mapping_ignores_row_order_witness :
  In (Mapping.mk "spotify:track:B" "spotify:track:A")
     (track_mapping_select (tables [track_A; track_B] [album_A; album_B])).
Proof.
  apply (mapping_ignores_row_order two_release_db
           (tables [track_A; track_B] [album_A; album_B])).
  - unfold tracks_keyed. simpl. repeat constructor; simpl; intuition discriminate.
  - unfold albums_keyed. simpl. repeat constructor; simpl; intuition discriminate.
  - simpl. apply perm_swap.
  - simpl. apply perm_swap.
  - vm_compute. now left.
Defined.

(** The rows of the outer join behind the selected rows. *)
Lemma select_sources db :
  map Mapping.old_track_uri (track_mapping_select db) =
  map (fun p : Track.t * Album.t * nat * Track.t => Track.spotify_track_uri (snd p))
      (flat_map (fun x => map (pair x) (filter (left_join_on x) (tracks db)))
                (filter (rank_is 1) (subquery_x db))).
Proof.
  rewrite track_mapping_select_eq, !project_flat_map.
  induction (filter (rank_is 1) (subquery_x db)) as [|x xs IH]; [reflexivity|].
  simpl. rewrite IH. f_equal. unfold mapping_rows_of. now rewrite !map_map.
Qed.

(** The primary key of [track_mapping_test] decides whether the rebuild
    runs: it runs when the track URIs are distinct, and when it runs no two
    different mapped tracks share a URI (a URI shared by two mapped tracks
    makes the INSERT fail). *)
Theorem mapping_rebuild_and_shared_uris db :
  (track_uris_distinct db -> exists db', TRACK_MAPPING_QUERY db = Some db') /\
  ((exists db', TRACK_MAPPING_QUERY db = Some db') ->
   forall t1 t2,
     In t1 (tracks db) -> In t2 (tracks db) ->
     (exists t, In t (tracks db) /\ partition_key t = partition_key t1 /\ has_album db t) ->
     (exists t, In t (tracks db) /\ partition_key t = partition_key t2 /\ has_album db t) ->
     Track.spotify_track_uri t1 = Track.spotify_track_uri t2 -> t1 = t2).
Proof.
  split.
  - intros U. eexists. now apply TRACK_MAPPING_QUERY_runs.
  - intros [db' Run] t1 t2 H1 H2 M1 M2 E.
    assert (N : NoDup (map Mapping.old_track_uri (track_mapping_select db))).
    { apply unique_keys_NoDup. unfold TRACK_MAPPING_QUERY in Run.
      destruct (unique_keys _); [reflexivity|discriminate]. }
    rewrite select_sources in N.
    assert (Src : forall t, In t (tracks db) ->
              (exists t', In t' (tracks db) /\ partition_key t' = partition_key t /\
                          has_album db t') ->
              exists x, In (x, t)
                (flat_map (fun x => map (pair x) (filter (left_join_on x) (tracks db)))
                          (filter (rank_is 1) (subquery_x db)))).
    { intros t Ht (t' & Ht' & Hk & a & Ha & Ea).
      destruct (canonical_rows_exists db (t', a)) as (c & Hc & Hck).
      { apply joined_rows_In. auto. }
      exists (c, 1%nat). apply in_flat_map. exists (c, 1%nat). split.
      - apply filter_In. split; [now apply canonical_rows_rank1|reflexivity].
      - apply in_map. apply filter_In. split; [exact Ht|].
        apply left_join_on_spec. simpl. unfold row_key in Hck. simpl in Hck. congruence. }
    destruct (Src t1 H1 M1) as [x1 S1]. destruct (Src t2 H2 M2) as [x2 S2].
    assert (P := NoDup_map_eq _ _ _ _ N S1 S2 E). congruence.
Qed.

Lemma mapping_rebuild_and_shared_uris_witness :
  (exists db', TRACK_MAPPING_QUERY two_release_db = Some db') /\
  TRACK_MAPPING_QUERY
    (tables [track_A; Track.mk "spotify:track:A" "Z" "1" "album_B" "X" 180500 1 no_audio]
            [album_A; album_B]) = None.
Proof.
  split.
  - apply (proj1 (mapping_rebuild_and_shared_uris two_release_db)).
    exact two_release_db_uris.
  - destruct (TRACK_MAPPING_QUERY
                (tables [track_A;
                         Track.mk "spotify:track:A" "Z" "1" "album_B" "X" 180500 1 no_audio]
                        [album_A; album_B])) as [db'|] eqn:Run; [|reflexivity].
    exfalso.
    assert (H := proj2 (mapping_rebuild_and_shared_uris _) (ex_intro _ db' Run)
                   track_A
                   (Track.mk "spotify:track:A" "Z" "1" "album_B" "X" 180500 1 no_audio)).
    simpl in H. discriminate H; auto.
    + exists track_A. split; [now left|]. split; [reflexivity|].
      exists album_A. split; [now left|reflexivity].
    + exists track_A. split; [now left|]. split; [reflexivity|].
      exists album_A. split; [now left|reflexivity].
Defined.

(* ===================================================================== *)
(** * Further facts about the consolidated rebuild and the back-fill *)
(* ===================================================================== *)

(** With the key of [tracks] the consolidated rebuild always passes the
    primary key of its target; every row it writes is for a track of
    [tracks] that is a mapping target and has an associated artist with a
    row in [artists]; no track id is written twice; and an empty
    [track_mapping] gives an empty table. *)
Theorem consolidated_rows_are_targets db :
  tracks_keyed db ->
  exists db', TRACKS_CONSOLIDATED_QUERY db = Some db' /\
    (forall r, In r (tracks_consolidated_test db') ->
       In (Consolidated.track r) (tracks db) /\
       is_mapping_target db (Consolidated.track r) /\
       exists a, associated_artist db (Track.spotify_track_id (Consolidated.track r)) a) /\
    NoDup (map (fun r => Track.spotify_track_id (Consolidated.track r))
               (tracks_consolidated_test db')) /\
    (track_mapping db = [] -> tracks_consolidated_test db' = []).
Proof.
  intros Tk. eexists. split; [now apply TRACKS_CONSOLIDATED_QUERY_runs|]. simpl.
  split; [|split].
  - intros r Hr. apply tracks_consolidated_select_In in Hr.
    destruct Hr as (Ht & Hm & Han). split; [exact Ht|]. split; [exact Hm|].
    apply subquery_an_In in Han. destruct Han as (_ & [[ta a] t'] & Hj & E).
    apply artist_join_In in Hj. simpl in E.
    exists a. split; [tauto|]. exists ta. tauto.
  - apply (key_of_distinct_rows (fun r => Track.spotify_track_id (Consolidated.track r))).
    + intros x y Hx Hy. now apply (consolidated_row_by_id db).
    + apply NoDup_nodup.
  - intros E. destruct (tracks_consolidated_select db) as [|r l] eqn:S; [reflexivity|].
    assert (Hr : In r (tracks_consolidated_select db)) by (rewrite S; now left).
    apply tracks_consolidated_select_In in Hr.
    destruct Hr as (_ & (tm & Htm & _) & _). rewrite E in Htm. destruct Htm.
Qed.

Lemma consolidated_rows_are_targets_witness :
  exists db', TRACKS_CONSOLIDATED_QUERY consolidation_db = Some db' /\
    NoDup (map (fun r => Track.spotify_track_id (Consolidated.track r))
               (tracks_consolidated_test db')).
Proof.
  destruct (consolidated_rows_are_targets consolidation_db) as (db' & Run & _ & N & _).
  - unfold tracks_keyed. simpl. repeat constructor. intros [].
  - exists db'. auto.
Defined.

Lemma find_uri_Some (ts : list Track.t) uri t :
  find (fun t => String.eqb uri (Track.spotify_track_uri t)) ts = Some t ->
  In t ts /\ Track.spotify_track_uri t = uri.
Proof.
  intros H. apply find_some in H. destruct H as [Hin E].
  apply String.eqb_eq in E. auto.
Qed.

Lemma find_uri_None (ts : list Track.t) uri :
  find (fun t => String.eqb uri (Track.spotify_track_uri t)) ts = None ->
  forall t, In t ts -> Track.spotify_track_uri t <> uri.
Proof.
  intros H t Ht E. assert (F := find_none _ _ H t Ht). simpl in F.
  rewrite E, String.eqb_refl in F. discriminate.
Qed.

(** The back-fill statement changes nothing but the two id columns of the
    listening history: a play whose URI no row of the tracks table carries is
    left as it is (NULL ids stay NULL), a play whose URI is known gets the
    artist and album ids of a track with that URI, the rows keep their
    number and order, and running the statement a second time changes
    nothing. *)
Theorem backfill_fills_known_plays db :
  mlh_update_stmt (mlh_update_stmt db) = mlh_update_stmt db /\
  artists_test (mlh_update_stmt db) = artists_test db /\
  tracks_test (mlh_update_stmt db) = tracks_test db /\
  Forall2
    (fun h h' =>
       Listening.music_stream_id h' = Listening.music_stream_id h /\
       Listening.spotify_track_uri h' = Listening.spotify_track_uri h /\
       Listening.artist_name h' = Listening.artist_name h /\
       ((forall t, In t (tracks_test db) ->
           Track.spotify_track_uri t <> Listening.spotify_track_uri h) -> h' = h) /\
       ((exists t, In t (tracks_test db) /\
           Track.spotify_track_uri t = Listening.spotify_track_uri h) ->
        exists t, In t (tracks_test db) /\
          Track.spotify_track_uri t = Listening.spotify_track_uri h /\
          Listening.spotify_artist_id h' = Some (Track.spotify_artist_id t) /\
          Listening.spotify_album_id h' = Some (Track.spotify_album_id t)))
    (music_listening_history_test db)
    (music_listening_history_test (mlh_update_stmt db)).
Proof.
  split; [|split; [reflexivity|split; [reflexivity|]]].
  - unfold mlh_update_stmt, set_music_listening_history_test. simpl. f_equal.
    rewrite map_map. apply map_ext. intros h.
    destruct (find (fun t => String.eqb (Listening.spotify_track_uri h)
                                        (Track.spotify_track_uri t))
                   (tracks_test db)) as [t|] eqn:F; simpl; rewrite F; reflexivity.
  - unfold mlh_update_stmt. simpl.
    induction (music_listening_history_test db) as [|h l IH]; simpl; constructor; auto.
    destruct (find _ (tracks_test db)) as [t|] eqn:F; simpl.
    + apply find_uri_Some in F. destruct F as [Hin E].
      repeat split; auto.
      * intros Hno. exfalso. now apply (Hno t).
      * intros _. exists t. auto.
    + repeat split; auto. intros (t & Hin & E). exfalso.
      now apply (find_uri_None _ _ F t).
Qed.

Lemma backfill_fills_known_plays_witness :
  music_listening_history_test
    (mlh_update_stmt
       (mkdb [] [] [] [] [] [] [] [track_A] []
             [Listening.mk 1 "spotify:track:A" None None "Band";
              Listening.mk 2 "spotify:track:Q" None None "Other"]))
  = [Listening.mk 1 "spotify:track:A" (Some "1") (Some "album_A") "Band";
     Listening.mk 2 "spotify:track:Q" None None "Other"].
Proof.
  pose proof (backfill_fills_known_plays
    (mkdb [] [] [] [] [] [] [] [track_A] []
          [Listening.mk 1 "spotify:track:A" None None "Band";
           Listening.mk 2 "spotify:track:Q" None None "Other"])) as (_ & _ & _ & F).
  inversion F as [|h h' l l' H1 F' E1 E2]; subst.
  inversion F' as [|g g' k k' H2 F'' E3 E4]; subst.
  inversion F''; subst. reflexivity.
Defined.

(* ===================================================================== *)
(** * The renaming of process_duplicate_artists, statement by statement *)
(* ===================================================================== *)

Lemma counts_match_empty : counts_match ∅ [].
Proof. intros n. simpl. apply lookup_empty. Qed.

Lemma counts_match_step m seen name v :
  counts_match m seen ->
  v = Z.of_nat (S (count_occ String.string_dec seen name)) ->
  counts_match (<[name := v]> m) (seen ++ [name]).
Proof.
  intros Hm -> n. rewrite count_occ_app. simpl.
  destruct (String.string_dec name n) as [->|Hne].
  - rewrite lookup_insert_eq. now rewrite Nat.add_1_r.
  - rewrite lookup_insert_ne by exact Hne. rewrite Nat.add_0_r. apply Hm.
Qed.

(** The counting loop, from any point on. *)
Lemma count_loop df : forall m out seen,
  counts_match m seen ->
  exists outs,
    snd (fold_left count_artist df (m, out)) = out ++ outs /\
    length outs = length df /\
    forall i row, nth_error df i = Some row ->
      nth_error outs i =
      Some (match count_occ String.string_dec
                    (seen ++ map Artist.artist_name (firstn i df))
                    (Artist.artist_name row) with
            | O => Artist.artist_name row
            | S k =>
                String.append (Artist.artist_name row)
                  (String.append " ("
                     (String.append (decimal (Z.of_nat (S (S k)))) ")"))
            end).
Proof.
  induction df as [|r df IH]; intros m out seen Hm.
  - exists []. simpl. split; [now rewrite app_nil_r|]. split; [reflexivity|].
    intros [|i] row; discriminate.
  - cbn [fold_left]. unfold count_artist at 2. cbn [fst snd].
    rewrite (Hm (Artist.artist_name r)).
    destruct (count_occ String.string_dec seen (Artist.artist_name r)) as [|k] eqn:C.
    + destruct (IH (<[Artist.artist_name r := 1]> m) (out ++ [Artist.artist_name r])
                   (seen ++ [Artist.artist_name r])) as (outs & E & L & N).
      { apply counts_match_step; [exact Hm|now rewrite C]. }
      exists (Artist.artist_name r :: outs). rewrite E, <- app_assoc.
      split; [reflexivity|]. split; [simpl; now rewrite L|].
      intros [|i] row Hrow; simpl in *.
      * injection Hrow as <-. now rewrite app_nil_r, C.
      * rewrite (N i row Hrow), <- app_assoc. reflexivity.
    + set (nm := String.append (Artist.artist_name r)
                   (String.append " ("
                      (String.append (decimal (Z.of_nat (S k) + 1)) ")"))).
      destruct (IH (<[Artist.artist_name r := Z.of_nat (S k) + 1]> m) (out ++ [nm])
                   (seen ++ [Artist.artist_name r])) as (outs & E & L & N).
      { apply counts_match_step; [exact Hm|rewrite C; lia]. }
      exists (nm :: outs). rewrite E, <- app_assoc.
      split; [reflexivity|]. split; [simpl; now rewrite L|].
      intros [|i] row Hrow; simpl in *.
      * injection Hrow as <-. rewrite app_nil_r, C. unfold nm.
        replace (Z.of_nat (S k) + 1) with (Z.of_nat (S (S k))) by lia. reflexivity.
      * rewrite (N i row Hrow), <- app_assoc. reflexivity.
Qed.

Lemma counting_loop_names df :
  length (new_artist_names df) = length df /\
  forall i row, nth_error df i = Some row ->
    nth_error (new_artist_names df) i =
    Some (match count_occ String.string_dec
                  (map Artist.artist_name (firstn i df)) (Artist.artist_name row) with
          | O => Artist.artist_name row
          | S k =>
              String.append (Artist.artist_name row)
                (String.append " ("
                   (String.append (decimal (Z.of_nat (S (S k)))) ")"))
          end).
Proof.
  destruct (count_loop df ∅ [] [] counts_match_empty) as (outs & E & L & N).
  unfold new_artist_names. rewrite E. simpl. split; [exact L|]. exact N.
Qed.

(** The counting loop gives every row a name: the bare name to the first
    row of a name, and to a row that has k rows of its name before it the
    name followed by " (k+1)" - so the rows of one name get the bare name,
    " (2)", " (3)" and so on, in the order of the frame. *)
Theorem new_artist_names_by_occurrence df :
  length (new_artist_names df) = length df /\
  forall i row, nth_error df i = Some row ->
    nth_error (new_artist_names df) i =
    Some (match count_occ String.string_dec
                  (map Artist.artist_name (firstn i df)) (Artist.artist_name row) with
          | O => Artist.artist_name row
          | S k =>
              String.append (Artist.artist_name row)
                (String.append " ("
                   (String.append (decimal (Z.of_nat (S (S k)))) ")"))
          end).
Proof. exact (counting_loop_names df). Qed.

Lemma new_artist_names_by_occurrence_witness :
  nth_error (new_artist_names [bob_1; guest; bob_2; bob_3]) 3 = Some "Bob (3)".
Proof.
  apply (proj2 (new_artist_names_by_occurrence [bob_1; guest; bob_2; bob_3]) 3%nat bob_3).
  reflexivity.
Defined.

Lemma append_fixed s t : String.append s t = s -> t = "".
Proof.
  induction s as [|c s IH]; simpl; [auto|]. intros [= E]. auto.
Qed.

Lemma sorted_nth {A : Type} (R : A -> A -> Prop) (l : list A) :
  StronglySorted R l ->
  forall i j a b, (i < j)%nat -> nth_error l i = Some a -> nth_error l j = Some b -> R a b.
Proof.
  induction 1 as [|x l Hs IH Hall]; intros i j a b Hij Ha Hb.
  - destruct i; discriminate.
  - destruct j as [|j]; [lia|]. simpl in Hb. destruct i as [|i]; simpl in Ha.
    + injection Ha as <-. rewrite Forall_forall in Hall. apply Hall.
      now apply nth_error_In in Hb.
    + apply (IH i j); auto. lia.
Qed.

Lemma followers_desc_total a b : followers_desc a b = true \/ followers_desc b a = true.
Proof. unfold followers_desc. rewrite !Z.leb_le. lia. Qed.

Lemma followers_desc_trans a b c :
  followers_desc a b = true -> followers_desc b c = true -> followers_desc a c = true.
Proof. unfold followers_desc. rewrite !Z.leb_le. lia. Qed.

Lemma assign_artist_name_nth df : forall names i a n,
  nth_error df i = Some a -> nth_error names i = Some n ->
  nth_error (assign_artist_name df names) i =
  Some (Artist.mk (Artist.spotify_artist_id a) n (Artist.followers a)).
Proof.
  unfold assign_artist_name.
  induction df as [|d df IH]; intros names i a n Ha Hn; [destruct i; discriminate|].
  destruct names as [|m names]; [destruct i; discriminate|].
  destruct i as [|i]; simpl in *.
  - injection Ha as ->. injection Hn as ->. reflexivity.
  - now apply IH.
Qed.

Lemma assign_artist_name_columns df : forall names,
  length names = length df ->
  map Artist.spotify_artist_id (assign_artist_name df names)
    = map Artist.spotify_artist_id df /\
  map Artist.followers (assign_artist_name df names) = map Artist.followers df.
Proof.
  unfold assign_artist_name.
  induction df as [|d df IH]; intros [|m names] L; simpl in *; try discriminate; auto.
  injection L as L. destruct (IH names L) as [E1 E2]. now rewrite E1, E2.
Qed.

Lemma sorted_followers (l : list Artist.t) :
  StronglySorted (fun a b => followers_desc a b = true) l ->
  StronglySorted (fun x y => y <= x) (map Artist.followers l).
Proof.
  induction 1 as [|x l Hs IH Hall]; simpl; constructor; [exact IH|].
  apply Forall_forall. intros f Hf. apply in_map_iff in Hf.
  destruct Hf as (y & <- & Hy). rewrite Forall_forall in Hall.
  specialize (Hall y Hy). unfold followers_desc in Hall. now apply Z.leb_le in Hall.
Qed.

(** The plan of the renaming lists the artists of the query by followers,
    largest first, and changes nothing but their names. *)
Theorem renaming_plan_orders_by_followers result :
  map Artist.spotify_artist_id (renaming_plan result)
    = map Artist.spotify_artist_id (order_by followers_desc result) /\
  map Artist.followers (renaming_plan result)
    = map Artist.followers (order_by followers_desc result) /\
  Permutation (map Artist.spotify_artist_id (renaming_plan result))
              (map Artist.spotify_artist_id result) /\
  StronglySorted (fun x y => y <= x) (map Artist.followers (renaming_plan result)).
Proof.
  unfold renaming_plan.
  destruct (assign_artist_name_columns (order_by followers_desc result)
              (new_artist_names (order_by followers_desc result))
              (proj1 (counting_loop_names _))) as [E1 E2].
  split; [exact E1|]. split; [exact E2|]. split.
  - rewrite E1. apply Permutation_map. symmetry. apply order_by_perm.
  - rewrite E2. apply sorted_followers.
    apply order_by_sorted; [apply followers_desc_total|apply followers_desc_trans].
Qed.

(** The artist that keeps the bare name has at least as many followers as
    every other artist of that name. *)
Theorem bare_name_goes_to_most_followed result i j a b a' :
  nth_error (order_by followers_desc result) i = Some a ->
  nth_error (order_by followers_desc result) j = Some b ->
  Artist.artist_name a = Artist.artist_name b ->
  nth_error (renaming_plan result) i = Some a' ->
  Artist.artist_name a' = Artist.artist_name a ->
  Artist.followers b <= Artist.followers a.
Proof.
  intros Ha Hb En Ha' Ekeep.
  set (df := order_by followers_desc result) in *.
  destruct (counting_loop_names df) as [L N].
  assert (Hn := N i a Ha).
  unfold renaming_plan in Ha'. fold df in Ha'.
  rewrite (assign_artist_name_nth df _ i a _ Ha Hn) in Ha'.
  injection Ha' as <-. simpl in Ekeep.
  destruct (count_occ String.string_dec (map Artist.artist_name (firstn i df))
                      (Artist.artist_name a)) as [|k] eqn:C.
  2:{ apply append_fixed in Ekeep. discriminate. }
  destruct (Nat.lt_trichotomy i j) as [Hlt|[->|Hgt]].
  - assert (S := order_by_sorted followers_desc followers_desc_total
                   followers_desc_trans result).
    assert (R := sorted_nth _ _ S i j a b Hlt Ha Hb).
    unfold followers_desc in R. now apply Z.leb_le in R.
  - rewrite Ha in Hb. injection Hb as <-. lia.
  - exfalso. assert (Hin : In (Artist.artist_name a) (map Artist.artist_name (firstn i df))).
    { rewrite En. apply in_map. apply (nth_error_In _ j).
      rewrite nth_error_firstn.
      destruct (Nat.ltb_spec j i) as [_|Hge]; [exact Hb|lia]. }
    apply (count_occ_In String.string_dec) in Hin. lia.
Qed.

Lemma bare_name_goes_to_most_followed_witness :
  Artist.followers bob_3 <= Artist.followers bob_1.
Proof.
  apply (bare_name_goes_to_most_followed [bob_3; bob_1; bob_2] 0%nat 2%nat bob_1 bob_3 bob_1);
    reflexivity.
Defined.

(** The tables after the renaming loop, row by row: every row has gone
    through the updates of the loop in turn; no other table is touched. *)
Lemma apply_new_names_tables rows : forall c,
  artists_test (working (snd (apply_new_names rows c)))
    = map (fun a => fold_left rename_artist rows a) (artists_test (working c)) /\
  music_listening_history_test (working (snd (apply_new_names rows c)))
    = map (fun h => fold_left rename_play rows h)
          (music_listening_history_test (working c)) /\
  tracks_test (working (snd (apply_new_names rows c))) = tracks_test (working c) /\
  tracks (working (snd (apply_new_names rows c))) = tracks (working c) /\
  artists (working (snd (apply_new_names rows c))) = artists (working c).
Proof.
  induction rows as [|row rows IH]; intros c.
  - simpl. rewrite !map_id. auto.
  - rewrite apply_new_names_cons.
    match goal with |- context [apply_new_names rows ?c0] =>
      destruct (IH c0) as (A & H & T1 & T2 & T3) end.
    rewrite A, H, T1, T2, T3. cbn [working]. 
    unfold artists_dupe_artist_stmt, mlh_dupe_artist_stmt. simpl.
    rewrite !map_map. auto.
Qed.

Lemma rename_artist_columns rows : forall a,
  Artist.spotify_artist_id (fold_left rename_artist rows a) = Artist.spotify_artist_id a /\
  Artist.followers (fold_left rename_artist rows a) = Artist.followers a.
Proof.
  induction rows as [|r rows IH]; intros a; simpl; [auto|].
  destruct (IH (rename_artist a r)) as [E1 E2]. rewrite E1, E2.
  unfold rename_artist. now destruct (String.eqb _ _).
Qed.

Lemma rename_artist_other rows : forall a,
  (forall r, In r rows -> Artist.spotify_artist_id r <> Artist.spotify_artist_id a) ->
  fold_left rename_artist rows a = a.
Proof.
  induction rows as [|r rows IH]; intros a H; simpl; [reflexivity|].
  assert (E : rename_artist a r = a).
  { unfold rename_artist.
    destruct (String.eqb _ _) eqn:E; [|reflexivity].
    apply String.eqb_eq in E. exfalso. apply (H r); [now left|auto]. }
  rewrite E. apply IH. intros r' Hr'. apply H. now right.
Qed.

Lemma rename_artist_hit rows : forall a r,
  NoDup (map Artist.spotify_artist_id rows) -> In r rows ->
  Artist.spotify_artist_id r = Artist.spotify_artist_id a ->
  Artist.artist_name (fold_left rename_artist rows a) = Artist.artist_name r.
Proof.
  induction rows as [|r0 rows IH]; intros a r N Hr E; [destruct Hr|].
  simpl in N. inversion N as [|? ? H0 Hrest]; subst. simpl.
  destruct Hr as [->|Hr].
  - rewrite rename_artist_other.
    + unfold rename_artist. now rewrite E, String.eqb_refl.
    + intros r' Hr' E'. apply H0.
      replace (Artist.spotify_artist_id r) with (Artist.spotify_artist_id r').
      * now apply in_map.
      * rewrite E'. unfold rename_artist. now destruct (String.eqb _ _).
  - apply IH; auto. rewrite E. unfold rename_artist. now destruct (String.eqb _ _).
Qed.

Lemma rename_play_columns rows : forall h,
  Listening.music_stream_id (fold_left rename_play rows h) = Listening.music_stream_id h /\
  Listening.spotify_track_uri (fold_left rename_play rows h)
    = Listening.spotify_track_uri h /\
  Listening.spotify_artist_id (fold_left rename_play rows h)
    = Listening.spotify_artist_id h /\
  Listening.spotify_album_id (fold_left rename_play rows h) = Listening.spotify_album_id h.
Proof.
  induction rows as [|r rows IH]; intros h; simpl; [auto|].
  destruct (IH (rename_play h r)) as (E1 & E2 & E3 & E4). rewrite E1, E2, E3, E4.
  unfold rename_play. destruct (Listening.spotify_artist_id h) as [i|] eqn:Ei; [|auto].
  destruct (String.eqb i _); simpl; auto.
Qed.

Lemma rename_play_other rows : forall h,
  (forall r, In r rows ->
     Listening.spotify_artist_id h <> Some (Artist.spotify_artist_id r)) ->
  fold_left rename_play rows h = h.
Proof.
  induction rows as [|r rows IH]; intros h H; simpl; [reflexivity|].
  assert (E : rename_play h r = h).
  { unfold rename_play. destruct (Listening.spotify_artist_id h) as [i|] eqn:Ei; [|reflexivity].
    destruct (String.eqb i _) eqn:E; [|reflexivity].
    apply String.eqb_eq in E. exfalso. apply (H r); [now left|]. now subst. }
  rewrite E. apply IH. intros r' Hr'. apply H. now right.
Qed.

Lemma rename_play_hit rows : forall h r,
  NoDup (map Artist.spotify_artist_id rows) -> In r rows ->
  Listening.spotify_artist_id h = Some (Artist.spotify_artist_id r) ->
  Listening.artist_name (fold_left rename_play rows h) = Artist.artist_name r.
Proof.
  induction rows as [|r0 rows IH]; intros h r N Hr E; [destruct Hr|].
  simpl in N. inversion N as [|? ? H0 Hrest]; subst. simpl.
  assert (Eid : forall r1, Listening.spotify_artist_id (rename_play h r1)
                           = Listening.spotify_artist_id h).
  { intros r1. unfold rename_play.
    destruct (Listening.spotify_artist_id h) as [i|] eqn:Ei; [|auto].
    destruct (String.eqb i _); simpl; auto. }
  destruct Hr as [->|Hr].
  - rewrite rename_play_other.
    + unfold rename_play. now rewrite E, String.eqb_refl.
    + intros r' Hr' E'. apply H0. rewrite Eid, E in E'. injection E' as E'.
      rewrite E'. now apply in_map.
  - apply IH; auto. now rewrite Eid.
Qed.

Lemma Forall2_map_self {A : Type} (P : A -> A -> Prop) (f : A -> A) (l : list A) :
  (forall x, In x l -> P x (f x)) -> Forall2 P l (map f l).
Proof.
  induction l as [|x l IH]; simpl; intros H; constructor; auto.
Qed.

(** When the frame names every artist id at most once, the renaming loop
    leaves both tables with their rows in place and changes names only: an
    artist, and a play, whose artist id is in the frame gets the name the
    frame gives that id; every other artist and play, and every play whose
    artist id is NULL, is left as it is. *)
Theorem renaming_loop_effect rows c :
  NoDup (map Artist.spotify_artist_id rows) ->
  Forall2
    (fun a a' =>
       Artist.spotify_artist_id a' = Artist.spotify_artist_id a /\
       Artist.followers a' = Artist.followers a /\
       (forall r, In r rows -> Artist.spotify_artist_id r = Artist.spotify_artist_id a ->
                  Artist.artist_name a' = Artist.artist_name r) /\
       ((forall r, In r rows -> Artist.spotify_artist_id r <> Artist.spotify_artist_id a) ->
        a' = a))
    (artists_test (working c))
    (artists_test (working (snd (apply_new_names rows c)))) /\
  Forall2
    (fun h h' =>
       Listening.music_stream_id h' = Listening.music_stream_id h /\
       Listening.spotify_track_uri h' = Listening.spotify_track_uri h /\
       Listening.spotify_artist_id h' = Listening.spotify_artist_id h /\
       Listening.spotify_album_id h' = Listening.spotify_album_id h /\
       (forall r, In r rows ->
          Listening.spotify_artist_id h = Some (Artist.spotify_artist_id r) ->
          Listening.artist_name h' = Artist.artist_name r) /\
       ((forall r, In r rows ->
           Listening.spotify_artist_id h <> Some (Artist.spotify_artist_id r)) ->
        h' = h))
    (music_listening_history_test (working c))
    (music_listening_history_test (working (snd (apply_new_names rows c)))).
Proof.
  intros N. destruct (apply_new_names_tables rows c) as (A & H & _).
  rewrite A, H. split; apply Forall2_map_self.
  - intros a _. destruct (rename_artist_columns rows a) as [E1 E2].
    split; [exact E1|]. split; [exact E2|]. split.
    + intros r Hr E. now apply rename_artist_hit.
    + apply rename_artist_other.
  - intros h _. destruct (rename_play_columns rows h) as (E1 & E2 & E3 & E4).
    split; [exact E1|]. split; [exact E2|]. split; [exact E3|]. split; [exact E4|]. split.
    + intros r Hr E. now apply rename_play_hit.
    + apply rename_play_other.
Qed.

Lemma renaming_loop_effect_witness :
  map Artist.artist_name
      (artists_test (working (snd (apply_new_names [Artist.mk "2" "Bob (2)" 50]
                                                   (fresh bobs_db)))))
  = ["Bob (2)"; "Bob"].
Proof.
  destruct (renaming_loop_effect [Artist.mk "2" "Bob (2)" 50] (fresh bobs_db)) as [F _].
  - simpl. repeat constructor. intros [].
  - revert F.
    generalize (artists_test
                  (working (snd (apply_new_names [Artist.mk "2" "Bob (2)" 50]
                                                 (fresh bobs_db))))) as after.
    intros after F. simpl in F.
    inversion F as [|a a' l l' (_ & _ & Hit & _) F' E1 E2]; subst.
    inversion F' as [|b b' k k' (_ & _ & _ & Miss) F'' E3 E4]; subst.
    inversion F''; subst. simpl.
    rewrite (Hit (Artist.mk "2" "Bob (2)" 50)); [|now left|reflexivity].
    rewrite Miss; [reflexivity|].
    intros r [<-|[]]. discriminate.
Defined.

Lemma dupe_query_In db n :
  In n (dupe_query db) <->
  (1 < count_occ String.string_dec (map Artist.artist_name (artists_test db)) n)%nat.
Proof.
  unfold dupe_query. rewrite filter_In, nodup_In, Z.ltb_lt. split.
  - intros [_ H]. lia.
  - intros H. split; [|lia]. apply (count_occ_In String.string_dec). lia.
Qed.

Lemma rename_duplicates_eq names c :
  rename_duplicates names c =
  apply_new_names (renaming_plan (followers_query names (working c)))
    (mkconn (working c) (committed c) (journal c ++ [Execute "SELECT artists_test"])).
Proof. reflexivity. Qed.

(** With the key of the artists table, the renaming run on the names that
    the duplicate query returns never touches an artist whose name no other
    artist carries, nor a play of such an artist. *)
Theorem unshared_names_are_kept c :
  NoDup (map Artist.spotify_artist_id (artists_test (working c))) ->
  Forall2
    (fun a a' =>
       count_occ String.string_dec
                 (map Artist.artist_name (artists_test (working c)))
                 (Artist.artist_name a) = 1%nat -> a' = a)
    (artists_test (working c))
    (artists_test (working (snd (rename_duplicates (dupe_query (working c)) c)))).
Proof.
  intros N. rewrite rename_duplicates_eq.
  destruct (apply_new_names_tables
              (renaming_plan (followers_query (dupe_query (working c)) (working c)))
              (mkconn (working c) (committed c)
                      (journal c ++ [Execute "SELECT artists_test"]))) as (A & _).
  rewrite A. cbn [working]. clear A.
  assert (G : forall a, In a (artists_test (working c)) ->
            count_occ String.string_dec
                      (map Artist.artist_name (artists_test (working c)))
                      (Artist.artist_name a) = 1%nat ->
            fold_left rename_artist
              (renaming_plan (followers_query (dupe_query (working c)) (working c))) a = a).
  { intros a Ha C. apply rename_artist_other. intros r Hr E.
    assert (Hid : In (Artist.spotify_artist_id r)
                     (map Artist.spotify_artist_id
                          (followers_query (dupe_query (working c)) (working c)))).
    { unfold renaming_plan in Hr.
      destruct (assign_artist_name_columns
                  (order_by followers_desc
                     (followers_query (dupe_query (working c)) (working c)))
                  (new_artist_names
                     (order_by followers_desc
                        (followers_query (dupe_query (working c)) (working c))))
                  (proj1 (counting_loop_names _))) as [E1 _].
      apply (in_map Artist.spotify_artist_id) in Hr. rewrite E1 in Hr.
      apply in_map_iff in Hr. destruct Hr as (x & Ex & Hx).
      apply order_by_In in Hx. rewrite <- Ex. now apply in_map. }
    apply in_map_iff in Hid. destruct Hid as (x & Ex & Hx).
    unfold followers_query in Hx. apply filter_In in Hx. destruct Hx as [Hx Hdup].
    assert (x = a) by (apply (NoDup_map_eq _ _ _ _ N); auto; congruence). subst x.
    apply existsb_exists in Hdup. destruct Hdup as (n & Hn & En).
    apply String.eqb_eq in En. subst n. apply dupe_query_In in Hn. lia. }
  apply Forall2_map_self. intros a Ha C. now apply G.
Qed.

Lemma unshared_names_are_kept_witness :
  nth_error
    (artists_test
       (working
          (snd (rename_duplicates (dupe_query bobs_and_solo_db)
                                  (fresh bobs_and_solo_db)))))
    1 = Some solo.
Proof.
  assert (N : NoDup (map Artist.spotify_artist_id
                         (artists_test (working (fresh bobs_and_solo_db))))).
  { simpl. repeat constructor; simpl; intuition discriminate. }
  assert (F := unshared_names_are_kept (fresh bobs_and_solo_db) N).
  cbn [working fresh] in F. revert F.
  generalize (artists_test
    (working
       (snd (rename_duplicates (dupe_query bobs_and_solo_db)
                               (fresh bobs_and_solo_db))))) as after.
  intros after F. unfold bobs_and_solo_db at 1 in F. cbn [artists_test] in F.
  inversion F as [|a a' l l' _ F' E1 E2]; subst.
  inversion F' as [|b b' k k' Keep F'' E3 E4]; subst.
  simpl. rewrite (Keep eq_refl). reflexivity.
Defined.

(* ===================================================================== *)
(** * The retry loop under any configuration *)
(* ===================================================================== *)

Section RetryLoopFacts.
Context {A : Type} (name : string) (func : nat -> outcome A * list api_event).
Variables (max_retries delay : Z).

(** The events of the calls with numbers [a], ..., [a + k - 1] when each of
    them raised and the loop went on. *)
Lemma retry_loop_answer k : forall a fuel v,
  Z.of_nat (a + k) < max_retries ->
  (Z.to_nat (max_retries - Z.of_nat a) <= fuel)%nat ->
  (forall j, (j < k)%nat -> exists e, fst (func (a + j)) = Raised e) ->
  fst (func (a + k)) = Returned v ->
  retry_loop name func max_retries delay fuel (Z.of_nat a) =
  Some (Returned (Some v),
        flat_map (fun j => snd (func j) ++
                           [Log "warning" (String.append "Retrying " name); Sleep delay])
                 (seq a k)
        ++ snd (func (a + k))).
Proof.
  induction k as [|k IH]; intros a fuel v Hlt Hf Hfail Hok.
  - rewrite Nat.add_0_r in *. destruct fuel as [|fuel]; [lia|]. cbn [retry_loop].
    apply Z.ltb_lt in Hlt. rewrite Hlt, Nat2Z.id.
    destruct (func a) as [[w|e] tr]; simpl in *; [|discriminate].
    now injection Hok as ->.
  - destruct fuel as [|fuel]; [lia|]. cbn [retry_loop].
    assert (Ha : (Z.of_nat a <? max_retries) = true) by (apply Z.ltb_lt; lia).
    rewrite Ha, Nat2Z.id.
    destruct (Hfail 0%nat) as [e He]; [lia|]. rewrite Nat.add_0_r in He.
    destruct (func a) as [[w|e'] tr] eqn:Fa; simpl in He; [discriminate|]. cbv zeta.
    assert (Hge : (Z.of_nat a + 1 >=? max_retries) = false).
    { destruct (Z.geb_spec (Z.of_nat a + 1) max_retries); [lia|reflexivity]. }
    rewrite Hge.
    replace (Z.of_nat a + 1) with (Z.of_nat (S a)) by lia.
    rewrite (IH (S a) fuel v).
    + cbn [seq flat_map]. rewrite Fa. cbn [snd].
      replace (S a + k)%nat with (a + S k)%nat by lia.
      now rewrite <- !app_assoc.
    + lia.
    + lia.
    + intros j Hj. replace (S a + j)%nat with (a + S j)%nat by lia. apply Hfail. lia.
    + replace (S a + k)%nat with (a + S k)%nat by lia. exact Hok.
Qed.

Lemma retry_loop_exhausted k : forall a fuel,
  Z.of_nat (a + k) + 1 = max_retries ->
  (Z.to_nat (max_retries - Z.of_nat a) <= fuel)%nat ->
  (forall j, (j <= k)%nat -> exists e, fst (func (a + j)) = Raised e) ->
  retry_loop name func max_retries delay fuel (Z.of_nat a) =
  Some (Raised (MaxRetriesExceededException
                  (String.append "Max retries reached for " name)),
        flat_map (fun j => snd (func j) ++
                           [Log "warning" (String.append "Retrying " name); Sleep delay])
                 (seq a k)
        ++ snd (func (a + k))
        ++ [Log "error" (String.append "Max retries reached for " name)]).
Proof.
  induction k as [|k IH]; intros a fuel Hm Hf Hfail.
  - rewrite Nat.add_0_r in *. destruct fuel as [|fuel]; [lia|]. cbn [retry_loop].
    assert (Ha : (Z.of_nat a <? max_retries) = true) by (apply Z.ltb_lt; lia).
    rewrite Ha, Nat2Z.id.
    destruct (Hfail 0%nat) as [e He]; [lia|]. rewrite Nat.add_0_r in He.
    destruct (func a) as [[w|e'] tr] eqn:Fa; simpl in He; [discriminate|]. cbv zeta.
    assert (Hge : (Z.of_nat a + 1 >=? max_retries) = true).
    { destruct (Z.geb_spec (Z.of_nat a + 1) max_retries); [reflexivity|lia]. }
    rewrite Hge. reflexivity.
  - destruct fuel as [|fuel]; [lia|]. cbn [retry_loop].
    assert (Ha : (Z.of_nat a <? max_retries) = true) by (apply Z.ltb_lt; lia).
    rewrite Ha, Nat2Z.id.
    destruct (Hfail 0%nat) as [e He]; [lia|]. rewrite Nat.add_0_r in He.
    destruct (func a) as [[w|e'] tr] eqn:Fa; simpl in He; [discriminate|]. cbv zeta.
    assert (Hge : (Z.of_nat a + 1 >=? max_retries) = false).
    { destruct (Z.geb_spec (Z.of_nat a + 1) max_retries); [lia|reflexivity]. }
    rewrite Hge.
    replace (Z.of_nat a + 1) with (Z.of_nat (S a)) by lia.
    rewrite (IH (S a) fuel).
    + cbn [seq flat_map]. rewrite Fa. cbn [snd].
      replace (S a + k)%nat with (a + S k)%nat by lia.
      now rewrite <- !app_assoc.
    + lia.
    + lia.
    + intros j Hj. replace (S a + j)%nat with (a + S j)%nat by lia. apply Hfail. lia.
Qed.

(** The loop never runs out of the fuel it is started with. *)
Lemma retry_loop_ends fuel : forall a,
  (Z.to_nat (max_retries - Z.of_nat a) <= fuel)%nat ->
  exists r, retry_loop name func max_retries delay fuel (Z.of_nat a) = Some r.
Proof.
  induction fuel as [|fuel IH]; intros a Hf; cbn [retry_loop].
  - destruct (Z.of_nat a <? max_retries) eqn:E; [|eauto].
    apply Z.ltb_lt in E. lia.
  - destruct (Z.of_nat a <? max_retries) eqn:E; [|eauto].
    apply Z.ltb_lt in E.
    destruct (func (Z.to_nat (Z.of_nat a))) as [[w|e] tr]; [eauto|]. cbv zeta.
    destruct (Z.of_nat a + 1 >=? max_retries); [eauto|].
    replace (Z.of_nat a + 1) with (Z.of_nat (S a)) by lia.
    destruct (IH (S a)) as [[r tr'] ->]; [lia|]. eauto.
Qed.

(** The decorator for any [max_retries] and [delay]: the loop always ends;
    with [max_retries] of zero or less the wrapped function is not called at
    all and the wrapper returns [None]; the first answer within
    [max_retries] calls is returned, after one warning and one sleep of
    [delay] per failed call; and [max_retries] failed calls in a row end in
    [MaxRetriesExceededException], with a sleep after each but the last. *)
Theorem retry_loop_any_cap :
  (exists r, retry_loop name func max_retries delay (Z.to_nat max_retries) 0 = Some r) /\
  (max_retries <= 0 ->
   retry_loop name func max_retries delay (Z.to_nat max_retries) 0
     = Some (Returned None, [])) /\
  (forall k v,
     Z.of_nat k < max_retries ->
     (forall j, (j < k)%nat -> exists e, fst (func j) = Raised e) ->
     fst (func k) = Returned v ->
     retry_loop name func max_retries delay (Z.to_nat max_retries) 0 =
     Some (Returned (Some v),
           flat_map (fun j => snd (func j) ++
                              [Log "warning" (String.append "Retrying " name); Sleep delay])
                    (seq 0 k)
           ++ snd (func k))) /\
  (1 <= max_retries ->
   (forall j, Z.of_nat j < max_retries -> exists e, fst (func j) = Raised e) ->
   retry_loop name func max_retries delay (Z.to_nat max_retries) 0 =
   Some (Raised (MaxRetriesExceededException
                   (String.append "Max retries reached for " name)),
         flat_map (fun j => snd (func j) ++
                            [Log "warning" (String.append "Retrying " name); Sleep delay])
                  (seq 0 (Z.to_nat max_retries - 1))
         ++ snd (func (Z.to_nat max_retries - 1))
         ++ [Log "error" (String.append "Max retries reached for " name)])).
Proof.
  split; [|split; [|split]].
  - apply (retry_loop_ends (Z.to_nat max_retries) 0%nat). simpl. lia.
  - intros Hm. destruct (Z.to_nat max_retries); cbn [retry_loop];
      destruct (Z.ltb_spec 0 max_retries); try lia; reflexivity.
  - intros k v Hk Hfail Hok.
    apply (retry_loop_answer k 0%nat (Z.to_nat max_retries) v); simpl; auto; lia.
  - intros Hm Hfail.
    apply (retry_loop_exhausted (Z.to_nat max_retries - 1) 0%nat (Z.to_nat max_retries));
      simpl; try lia.
    intros j Hj. apply Hfail. lia.
Qed.
End RetryLoopFacts.

Lemma retry_loop_any_cap_witness :
  retry_loop "fetch_artist"
    (api_body "About to make an artist call" "artist" (sp_artist flaky_sp "x")) 0 10
    (Z.to_nat 0) 0 = Some (Returned None, []) /\
  exists tr,
    retry_loop "fetch_album"
      (api_body "About to make an album call" "album" (sp_album flaky_sp "x")) 5 1
      (Z.to_nat 5) 0 = Some (Returned (Some "album"), tr) /\
    sleeps tr = [1; 1; 5].
Proof.
  split.
  - apply (retry_loop_any_cap "fetch_artist" _ 0 10). lia.
  - eexists. split.
    + apply (retry_loop_any_cap "fetch_album"
               (api_body "About to make an album call" "album" (sp_album flaky_sp "x"))
               5 1).
      * instantiate (1 := 2%nat). lia.
      * intros j Hj. exists (SpotifyException "429").
        destruct j as [|[|j]]; [reflexivity|reflexivity|lia].
      * reflexivity.
    + reflexivity.
Defined.

(* ===================================================================== *)
(** * The batch run: what main does with an exception *)
(* ===================================================================== *)

(** Whatever is raised inside the [try] block of [handle_new_tracks] (a
    failed insert as much as a call that gave up), the handler's own message
    fails first: the batch ends in the [NameError] for [start_index], the
    batch loop stops there, and [main], which logs every exception other
    than the dedicated one without raising it again, returns normally. *)
Theorem failure_inside_handle_new_tracks (batch_at : Z -> batch) start_index len k e :
  start_index + batch_size * Z.of_nat k < len ->
  (forall j, (j < k)%nat ->
     exists v, process_batch (batch_at (start_index + batch_size * Z.of_nat j))
               = Returned v) ->
  batch_has_new_tracks (batch_at (start_index + batch_size * Z.of_nat k)) = true ->
  (exists v, batch_tracks (batch_at (start_index + batch_size * Z.of_nat k)) = Returned v) ->
  (batch_has_new_track_artists (batch_at (start_index + batch_size * Z.of_nat k)) = true ->
   exists v, new_track_artists_body (batch_at (start_index + batch_size * Z.of_nat k))
             = Returned v) ->
  (exists v, af_batch_tracks (batch_at (start_index + batch_size * Z.of_nat k))
             = Returned v) ->
  new_tracks_body (batch_at (start_index + batch_size * Z.of_nat k)) = Raised e ->
  process_batch (batch_at (start_index + batch_size * Z.of_nat k))
    = Raised (NameError "start_index") /\
  batch_main (fun i => process_batch (batch_at i)) start_index len =
    Some (Returned tt,
          map (fun j => start_index + batch_size * Z.of_nat j) (seq 0 (S k))).
Proof.
  intros Hlt Hok Hnew Hbt Hta Haf Hbody.
  assert (P := process_batch_body_raised _ _ Hnew Hbt Hta Haf Hbody).
  split; [exact P|].
  unfold batch_main.
  now rewrite (batch_loop_stops (fun i => process_batch (batch_at i)) k
                 (Z.to_nat (len - start_index)) start_index len
                 (NameError "start_index") (le_n _) Hlt Hok P).
Qed.

Lemma failure_inside_handle_new_tracks_witness :
  batch_main (fun i => process_batch
                         (mkbatch true true (Returned None) (Returned tt) (Returned None)
                            (if i =? 50
                             then Raised (IntegrityError "INSERT albums_test")
                             else Returned tt)))
             0 420
  = Some (Returned tt, [0; 50]).
Proof.
  apply (failure_inside_handle_new_tracks
           (fun i => mkbatch true true (Returned None) (Returned tt) (Returned None)
                       (if i =? 50
                        then Raised (IntegrityError "INSERT albums_test")
                        else Returned tt))
           0 420 1%nat (IntegrityError "INSERT albums_test")).
  - reflexivity.
  - intros j Hj. exists tt. destruct j as [|j]; [reflexivity|lia].
  - reflexivity.
  - now exists None.
  - intros _. now exists tt.
  - now exists None.
  - reflexivity.
Defined.

(* ===================================================================== *)
(** * The track frame and its batches *)
(* ===================================================================== *)

Lemma firstn_whole {A} (n : nat) (l : list A) :
  firstn (Nat.min n (length l)) l = firstn n l.
Proof.
  destruct (Nat.le_ge_cases n (length l)) as [H|H].
  - now rewrite Nat.min_l.
  - rewrite Nat.min_r by exact H. now rewrite !firstn_all2 by lia.
Qed.

(** From a start index that is not negative the slice is the next
    [batch_size] URIs of the frame, fewer at its end. *)
Lemma get_batch_track_uris_eq track_df start_index size :
  0 <= start_index -> 0 <= size ->
  get_batch_track_uris track_df start_index size =
  firstn (Z.to_nat size)
         (skipn (Z.to_nat start_index) (map TrackFrame.spotify_track_uri track_df)).
Proof.
  intros Hs Hb. unfold get_batch_track_uris, slice, slice_index.
  rewrite length_map.
  set (uris := map TrackFrame.spotify_track_uri track_df).
  assert (L : length uris = length track_df) by apply length_map.
  destruct (Z.ltb_spec start_index 0); [lia|].
  destruct (Z.ltb_spec (Z.min (start_index + size) (Z.of_nat (length track_df))) 0); [lia|].
  destruct (Z.le_gt_cases start_index (Z.of_nat (length track_df))) as [Hle|Hgt].
  - rewrite (Z.min_l start_index _ Hle).
    rewrite <- (firstn_whole (Z.to_nat size)). f_equal.
    rewrite length_skipn. lia.
  - rewrite (Z.min_r start_index (Z.of_nat (length track_df))) by lia.
    rewrite (Z.min_r (start_index + size) (Z.of_nat (length track_df))) by lia.
    rewrite Z.min_id, Z.sub_diag. cbn [Z.to_nat firstn].
    rewrite (skipn_all2 (n := Z.to_nat start_index) uris) by lia.
    now rewrite firstn_nil.
Qed.

Lemma batch_loop_covers track_df run fuel : forall start_index,
  0 <= start_index ->
  (Z.to_nat (Z.of_nat (length track_df) - start_index) <= fuel)%nat ->
  (forall i, run i = Returned tt) ->
  exists done,
    batch_loop run fuel start_index (Z.of_nat (length track_df))
      = Some (Returned tt, done) /\
    concat (batches_of track_df done)
      = skipn (Z.to_nat start_index) (map TrackFrame.spotify_track_uri track_df) /\
    Forall (fun batch => batch <> [] /\ (length batch <= Z.to_nat batch_size)%nat)
           (batches_of track_df done).
Proof.
  induction fuel as [|fuel IH]; intros start_index Hs Hf Hrun.
  - cbn [batch_loop]. destruct (Z.ltb_spec start_index (Z.of_nat (length track_df))); [lia|].
    exists []. split; [reflexivity|]. split; [|constructor].
    simpl. rewrite skipn_all2; [reflexivity|]. rewrite length_map. lia.
  - cbn [batch_loop]. destruct (Z.ltb_spec start_index (Z.of_nat (length track_df))).
    + rewrite Hrun.
      destruct (IH (start_index + batch_size)) as (done & -> & Hc & Hall);
        [unfold batch_size; lia|unfold batch_size; lia|exact Hrun|].
      exists (start_index :: done). split; [reflexivity|].
      unfold batches_of in *. cbn [map concat]. rewrite Hc.
      rewrite get_batch_track_uris_eq by (unfold batch_size; lia).
      replace (Z.to_nat (start_index + batch_size))
        with (Z.to_nat batch_size + Z.to_nat start_index)%nat by (unfold batch_size; lia).
      rewrite <- skipn_skipn. split; [apply firstn_skipn|].
      constructor; [|exact Hall]. split.
      * intros E. apply (f_equal (@length _)) in E.
        rewrite length_firstn, length_skipn, length_map in E. unfold batch_size in E.
        cbn [length] in E. lia.
      * rewrite length_firstn. lia.
    + exists []. split; [reflexivity|]. split; [|constructor].
      simpl. rewrite skipn_all2; [reflexivity|]. rewrite length_map. lia.
Qed.

(** A run of the batch loop that meets no exception, started at an index
    that is not negative, cuts the frame from that index on into batches:
    put one after the other they are the URIs of the frame from the start
    index to its end, each once and in the order of the frame; no batch is
    empty and none has more than [batch_size] URIs. *)
Theorem batches_cover_the_frame track_df run start_index :
  0 <= start_index ->
  (forall i, run i = Returned tt) ->
  exists done,
    batch_main run start_index (Z.of_nat (length track_df)) = Some (Returned tt, done) /\
    concat (batches_of track_df done)
      = skipn (Z.to_nat start_index) (map TrackFrame.spotify_track_uri track_df) /\
    Forall (fun batch => batch <> [] /\ (length batch <= Z.to_nat batch_size)%nat)
           (batches_of track_df done).
Proof.
  intros Hs Hrun.
  destruct (batch_loop_covers track_df run
              (Z.to_nat (Z.of_nat (length track_df) - start_index)) start_index
              Hs (le_n _) Hrun) as (done & E & Hc & Hall).
  exists done. unfold batch_main. rewrite E. auto.
Qed.

Lemma batches_cover_the_frame_witness :
  exists done,
    batch_main (fun _ => Returned tt) 1
               (Z.of_nat (length (read_and_process_track_csv listening_lines)))
      = Some (Returned tt, done) /\
    concat (batches_of (read_and_process_track_csv listening_lines) done)
      = ["spotify:track:B"; "spotify:track:C"].
Proof.
  destruct (batches_cover_the_frame (read_and_process_track_csv listening_lines)
              (fun _ => Returned tt) 1) as (done & E & Hc & _).
  - lia.
  - reflexivity.
  - exists done. split; [exact E|exact Hc].
Defined.

(* ===================================================================== *)
(** * The track frame *)
(* ===================================================================== *)

Lemma string_leb_compare a b : String.leb a b = true <-> String.compare a b <> Gt.
Proof. unfold String.leb. destruct (String.compare a b); split; congruence. Qed.

Lemma string_leb_total a b : String.leb a b = true \/ String.leb b a = true.
Proof. rewrite !string_leb_compare. apply string_compare_total. Qed.

Lemma string_leb_trans a b c :
  String.leb a b = true -> String.leb b c = true -> String.leb a c = true.
Proof. rewrite !string_leb_compare. apply string_compare_trans. Qed.

(** Sorted keys without a repetition go strictly up. *)
Lemma sorted_keys_go_up (keys : list string) :
  StronglySorted (fun a b => String.leb a b = true) keys ->
  NoDup keys ->
  StronglySorted (fun a b => String.compare a b = Lt) keys.
Proof.
  induction 1 as [|k keys Hs IH Hk]; intros Hn; constructor.
  - apply IH. now inversion Hn.
  - inversion Hn as [|? ? Hnot _]; subst.
    rewrite Forall_forall in *. intros k' Hin.
    assert (L := Hk k' Hin). apply string_leb_compare in L.
    destruct (String.compare k k') eqn:E; [|reflexivity|congruence].
    apply String.compare_eq_iff in E. now subst.
Qed.

Lemma group_keys_In df uri :
  In uri (group_keys df) <->
  exists r, In r df /\ CsvRow.Spotify_Track_URI r = Some uri.
Proof.
  unfold group_keys. rewrite order_by_In, nodup_In, in_flat_map.
  split; intros (r & Hr & H); exists r; (split; [exact Hr|]).
  - destruct (CsvRow.Spotify_Track_URI r) as [u|]; simpl in H; [|tauto].
    destruct H as [->|[]]. reflexivity.
  - rewrite H. now left.
Qed.

Lemma group_keys_go_up df :
  StronglySorted (fun a b => String.compare a b = Lt) (group_keys df).
Proof.
  apply sorted_keys_go_up.
  - apply order_by_sorted; [exact string_leb_total|exact string_leb_trans].
  - unfold group_keys.
    eapply Permutation_NoDup; [apply order_by_perm|]. apply NoDup_nodup.
Qed.

Lemma group_In df uri r :
  In r (group df uri) <-> In r df /\ CsvRow.Spotify_Track_URI r = Some uri.
Proof.
  unfold group. rewrite filter_In.
  destruct (CsvRow.Spotify_Track_URI r) as [u|].
  - rewrite String.eqb_eq. split; intros [H1 H2]; (split; [exact H1|congruence]).
  - split; intros [_ H]; discriminate.
Qed.

Lemma groupby_first_Some {Row} (column : Row -> option string) rows v :
  groupby_first (map column rows) = Some v ->
  exists r, In r rows /\ column r = Some v.
Proof.
  induction rows as [|r rows IH]; simpl; [discriminate|].
  destruct (column r) as [w|] eqn:E.
  - intros [= <-]. exists r. auto.
  - intros H. destruct (IH H) as (r' & Hin & Hc). exists r'. auto.
Qed.

Lemma groupby_first_None {Row} (column : Row -> option string) rows :
  groupby_first (map column rows) = None ->
  forall r, In r rows -> column r = None.
Proof.
  induction rows as [|r rows IH]; simpl; [tauto|].
  destruct (column r) as [w|] eqn:E; [discriminate|].
  intros H r' [<-|Hin]; [exact E|now apply IH].
Qed.

Lemma frame_uris df :
  map TrackFrame.spotify_track_uri (read_and_process_track_csv df) = group_keys df.
Proof.
  unfold read_and_process_track_csv. rewrite map_map. simpl. apply map_id.
Qed.

(** The frame of [read_and_process_track_csv] has one row for each track
    URI that occurs in the file, in strictly increasing order of the URIs
    (so none twice); rows without a URI give none.  The artist name of a row
    is an artist name of a line with that URI, and is NaN only if every
    line with that URI has none; likewise the album name. *)
Theorem track_frame_rows df :
  StronglySorted (fun a b => String.compare a b = Lt)
                 (map TrackFrame.spotify_track_uri (read_and_process_track_csv df)) /\
  NoDup (map TrackFrame.spotify_track_uri (read_and_process_track_csv df)) /\
  (forall uri,
     In uri (map TrackFrame.spotify_track_uri (read_and_process_track_csv df)) <->
     exists r, In r df /\ CsvRow.Spotify_Track_URI r = Some uri) /\
  (forall row, In row (read_and_process_track_csv df) ->
     (forall v, TrackFrame.artist_name row = Some v ->
        exists r, In r df /\
                  CsvRow.Spotify_Track_URI r = Some (TrackFrame.spotify_track_uri row) /\
                  CsvRow.Artist_Name r = Some v) /\
     (TrackFrame.artist_name row = None ->
        forall r, In r df ->
                  CsvRow.Spotify_Track_URI r = Some (TrackFrame.spotify_track_uri row) ->
                  CsvRow.Artist_Name r = None) /\
     (forall v, TrackFrame.album_name row = Some v ->
        exists r, In r df /\
                  CsvRow.Spotify_Track_URI r = Some (TrackFrame.spotify_track_uri row) /\
                  CsvRow.Album_Name r = Some v) /\
     (TrackFrame.album_name row = None ->
        forall r, In r df ->
                  CsvRow.Spotify_Track_URI r = Some (TrackFrame.spotify_track_uri row) ->
                  CsvRow.Album_Name r = None)).
Proof.
  rewrite frame_uris. split; [apply group_keys_go_up|]. split; [|split].
  - unfold group_keys.
    eapply Permutation_NoDup; [apply order_by_perm|]. apply NoDup_nodup.
  - apply group_keys_In.
  - intros row Hrow. unfold read_and_process_track_csv in Hrow.
    apply in_map_iff in Hrow. destruct Hrow as (uri & <- & _). simpl.
    repeat split.
    + intros v Hv. apply groupby_first_Some in Hv. destruct Hv as (r & Hr & Hc).
      apply group_In in Hr. exists r. tauto.
    + intros Hn r Hr Hu. apply (groupby_first_None _ _ Hn). now apply group_In.
    + intros v Hv. apply groupby_first_Some in Hv. destruct Hv as (r & Hr & Hc).
      apply group_In in Hr. exists r. tauto.
    + intros Hn r Hr Hu. apply (groupby_first_None _ _ Hn). now apply group_In.
Qed.

(** From the file to the batches: a run from index 0 that meets no exception
    hands every track URI of the file to [process_batch], each in exactly
    one batch and once in it, and hands over nothing else. *)
Theorem every_track_uri_in_one_batch df run :
  (forall i, run i = Returned tt) ->
  exists done,
    batch_main run 0 (Z.of_nat (length (read_and_process_track_csv df)))
      = Some (Returned tt, done) /\
    NoDup (concat (batches_of (read_and_process_track_csv df) done)) /\
    (forall uri,
       In uri (concat (batches_of (read_and_process_track_csv df) done)) <->
       exists r, In r df /\ CsvRow.Spotify_Track_URI r = Some uri).
Proof.
  intros Hrun.
  destruct (batch_loop_covers (read_and_process_track_csv df) run
              (Z.to_nat (Z.of_nat (length (read_and_process_track_csv df)) - 0)) 0
              (Z.le_refl 0) (le_n _) Hrun) as (done & E & Hc & _).
  exists done. unfold batch_main. rewrite E. split; [reflexivity|].
  rewrite Hc. cbn [Z.to_nat skipn]. rewrite frame_uris. split.
  - unfold group_keys.
    eapply Permutation_NoDup; [apply order_by_perm|]. apply NoDup_nodup.
  - apply group_keys_In.
Qed.

Lemma every_track_uri_in_one_batch_witness :
  exists done,
    batch_main (fun _ => Returned tt) 0
               (Z.of_nat (length (read_and_process_track_csv listening_lines)))
      = Some (Returned tt, done) /\
    NoDup (concat (batches_of (read_and_process_track_csv listening_lines) done)) /\
    (In "spotify:track:B"
        (concat (batches_of (read_and_process_track_csv listening_lines) done)) <->
     exists r, In r listening_lines /\
               CsvRow.Spotify_Track_URI r = Some "spotify:track:B").
Proof.
  destruct (every_track_uri_in_one_batch listening_lines (fun _ => Returned tt))
    as (done & E & Hn & Hin).
  - reflexivity.
  - exists done. split; [exact E|]. split; [exact Hn|apply Hin].
Defined.

(* ===================================================================== *)
(** * Is there anything new in a batch? *)
(* ===================================================================== *)

Section CheckNewFacts.
Variable tracks_table : list Track.t.
Variable track_artists_table : list TrackArtistRow.t.

Lemma scalar_truthy {Row} (column : Row -> string) (keep : Row -> bool) rows uri :
  (forall r, keep r = true -> column r = uri) ->
  truthy (scalar column (filter keep rows)) = true <->
  uri <> EmptyString /\ exists r, In r rows /\ keep r = true.
Proof.
  intros Hcol. unfold scalar.
  destruct (filter keep rows) as [|r rest] eqn:E; simpl.
  - split; [discriminate|]. intros (_ & r & Hin & Hk).
    assert (F : In r (filter keep rows)) by (apply filter_In; auto).
    rewrite E in F. destruct F.
  - assert (F : In r (filter keep rows)) by (rewrite E; now left).
    apply filter_In in F. destruct F as [Hin Hk].
    rewrite negb_true_iff, (Hcol r Hk). split.
    + intros Hne. split; [|eauto]. intros ->. discriminate.
    + intros [Hne _]. now apply String.eqb_neq.
Qed.

Lemma track_exists_truthy uri :
  truthy (track_exists tracks_table uri) = true <->
  uri <> EmptyString /\ exists t, In t tracks_table /\ Track.spotify_track_uri t = uri.
Proof.
  unfold track_exists. rewrite (scalar_truthy _ _ _ uri).
  - split; intros (Hne & t & Hin & H); (split; [exact Hne|]); exists t;
      (split; [exact Hin|]); now apply String.eqb_eq.
  - intros t. apply String.eqb_eq.
Qed.

Lemma af_is_None_In t : af_is_None t = true <-> In None (Track.audio t).
Proof.
  unfold af_is_None. rewrite existsb_exists. split.
  - intros ([v|] & Hin & H); [discriminate|exact Hin].
  - intros Hin. exists None. auto.
Qed.

Lemma af_not_populated_truthy uri :
  truthy (af_not_populated tracks_table uri) = true <->
  uri <> EmptyString /\
  exists t, In t tracks_table /\ Track.spotify_track_uri t = uri /\ In None (Track.audio t).
Proof.
  unfold af_not_populated. rewrite (scalar_truthy _ _ _ uri).
  - split; intros (Hne & t & Hin & H); (split; [exact Hne|]); exists t;
      (split; [exact Hin|]).
    + apply andb_true_iff in H. destruct H as [H1 H2].
      split; [now apply String.eqb_eq|now apply af_is_None_In].
    + apply andb_true_iff. destruct H as [H1 H2].
      split; [now apply String.eqb_eq|now apply af_is_None_In].
  - intros t H. apply andb_true_iff in H. now apply String.eqb_eq.
Qed.

Lemma track_artist_exists_truthy uri :
  truthy (track_artist_exists track_artists_table uri) = true <->
  uri <> EmptyString /\
  exists r, In r track_artists_table /\ TrackArtistRow.spotify_track_uri r = uri.
Proof.
  unfold track_artist_exists. rewrite (scalar_truthy _ _ _ uri).
  - split; intros (Hne & t & Hin & H); (split; [exact Hne|]); exists t;
      (split; [exact Hin|]); now apply String.eqb_eq.
  - intros t. apply String.eqb_eq.
Qed.

(** The flags after the loop: what they were, or set by one of the URIs;
    the [break] leaves nothing out, as both are set when it is taken. *)
Lemma check_loop_flags uris : forall new_tracks new_track_artists,
  check_loop tracks_table track_artists_table uris new_tracks new_track_artists =
  (new_tracks ||
     existsb (fun uri => negb (truthy (track_exists tracks_table uri))
                         || truthy (af_not_populated tracks_table uri)) uris,
   new_track_artists ||
     existsb (fun uri => negb (truthy (track_artist_exists track_artists_table uri))) uris).
Proof.
  induction uris as [|uri uris IH]; intros a b; cbn [check_loop existsb].
  - now rewrite !orb_false_r.
  - cbv zeta.
    destruct (negb (truthy (track_exists tracks_table uri))
              || truthy (af_not_populated tracks_table uri));
      destruct (negb (truthy (track_artist_exists track_artists_table uri)));
      destruct a, b; cbn [andb orb]; rewrite ?IH; cbn [orb];
      rewrite ?orb_true_r; reflexivity.
Qed.
End CheckNewFacts.

(** [check_new_tracks_and_artists] reports new tracks exactly when some URI
    of the batch is the empty string, has no row in the tracks table, or has
    a row there with an audio feature that is NULL; it reports new track
    artists exactly when some URI of the batch is the empty string or has no
    row in the track-artists table.  The early [break] changes neither
    answer. *)
Theorem check_new_tracks_and_artists_flags tracks_table track_artists_table batch_track_uris :
  (fst (check_new_tracks_and_artists tracks_table track_artists_table batch_track_uris)
   = true <->
   exists uri, In uri batch_track_uris /\
     (uri = EmptyString \/
      (forall t, In t tracks_table -> Track.spotify_track_uri t <> uri) \/
      (exists t, In t tracks_table /\ Track.spotify_track_uri t = uri /\
                 In None (Track.audio t)))) /\
  (snd (check_new_tracks_and_artists tracks_table track_artists_table batch_track_uris)
   = true <->
   exists uri, In uri batch_track_uris /\
     (uri = EmptyString \/
      forall r, In r track_artists_table -> TrackArtistRow.spotify_track_uri r <> uri)).
Proof.
  unfold check_new_tracks_and_artists. rewrite check_loop_flags. cbn [fst snd orb].
  rewrite !existsb_exists. split.
  - split; intros (uri & Hin & H); exists uri; (split; [exact Hin|]).
    + destruct (String.string_dec uri EmptyString) as [E|Hne]; [now left|right].
      apply orb_true_iff in H. destruct H as [H|H].
      * left. intros t Ht Hu. apply negb_true_iff in H.
        assert (T : truthy (track_exists tracks_table uri) = true)
          by (apply track_exists_truthy; eauto).
        congruence.
      * right. apply af_not_populated_truthy in H. tauto.
    + apply orb_true_iff.
      destruct (truthy (track_exists tracks_table uri)) eqn:T; [|now left].
      right. apply track_exists_truthy in T. destruct T as [Hne (t0 & Ht0 & Hu0)].
      destruct H as [E|[Hno|Hsome]]; [congruence|now destruct (Hno t0 Ht0)|].
      apply af_not_populated_truthy. auto.
  - split; intros (uri & Hin & H); exists uri; (split; [exact Hin|]).
    + destruct (String.string_dec uri EmptyString) as [E|Hne]; [now left|right].
      intros r Hr Hu. apply negb_true_iff in H.
      assert (T : truthy (track_artist_exists track_artists_table uri) = true)
        by (apply track_artist_exists_truthy; eauto).
      congruence.
    + apply negb_true_iff.
      destruct (truthy (track_artist_exists track_artists_table uri)) eqn:T;
        [|reflexivity].
      apply track_artist_exists_truthy in T. destruct T as [Hne (r0 & Hr0 & Hu0)].
      destruct H as [E|Hno]; [congruence|now destruct (Hno r0 Hr0)].
Qed.
